(** * cargo-mirror: a shallow embedding of [cargo_mirror.py]

    The development follows the source top to bottom: Python values and
    exceptions, [hashlib]'s SHA-256, [CrateVersion] and the index reader
    ([get_crate_versions], [get_crates]), the per-record state machine
    ([get_hash], [retrieve_and_hash], [download_crate], [dl]), the
    reconciler ([cleanup]), the coordinator ([update]) and the command
    dispatch ([main]).

    What the interpreter and the outside world provide (json.loads, str(),
    the remote server, the git refresh of the index, the number of CPUs) is
    gathered in one record [Env]; every definition and theorem is stated
    for an arbitrary [Env].  The mirror directory is a finite map from the
    names of its loose files to their bytes, next to the index tree.

    Scope of the model.  File names are single path components and the
    loose entries of the directory are regular files; the file system is
    POSIX (rename replaces its destination); the remote source answers a
    given URL the same way each time; no user interrupt is delivered;
    the commands new, init and install, which only prepare the directory
    and Cargo's configuration, are not modelled. *)

From Stdlib Require Import ZArith List String Ascii Strings.Byte Lia Bool.
From stdpp Require Import base tactics option list gmap strings pretty relations.
Import ListNotations.

Set Default Proof Using "Type".
Set Warnings "-register-all,-abstract-large-number,-clear-no-such-hyp".

(** ** Python values, bytes and exceptions *)

Abbreviation bytes := (list byte).

#[global] Instance byte_eq_dec : EqDecision byte := Byte.byte_eq_dec.

(** The exceptions the program can meet.  [URLError] also stands for its
    subclass HTTPError; [OSError] for what a socket read raises once the
    transfer has started (connection reset, timeout). *)
Inductive exn :=
| JSONDecodeError
| KeyError (key : string)
| TypeError
| ValueError
| URLError (reason : string)
| OSError (msg : string)
| FileNotFoundError (path : string)
| NameError (name : string).

#[global] Instance exn_eq_dec : EqDecision exn.
Proof. solve_decision. Defined.

Inductive result (A : Type) :=
| Return (a : A)
| Raise (e : exn).
Arguments Return {A} a.
Arguments Raise {A} e.

#[global] Instance result_eq_dec {A} `{EqDecision A} : EqDecision (result A).
Proof. solve_decision. Defined.

(** What json.loads builds: None, bool, int, float, str, list, dict.  A
    float is carried by its repr; a dict by its items in textual order. *)
Inductive json :=
| JNull
| JBool (b : bool)
| JInt (z : Z)
| JFloat (repr : string)
| JString (s : string)
| JArray (items : list json)
| JObject (items : list (string * json)).

(** [obj[key]] for a str key: the last binding of a dict, KeyError when the
    dict has none, TypeError on every other value. *)
Fixpoint dict_get (key : string) (items : list (string * json)) : option json :=
  match items with
  | [] => None
  | (k, v) :: rest =>
      match dict_get key rest with
      | Some v' => Some v'
      | None => if String.eqb k key then Some v else None
      end
  end.

Definition getitem (obj : json) (key : string) : result json :=
  match obj with
  | JObject items =>
      match dict_get key items with
      | Some v => Return v
      | None => Raise (KeyError key)
      end
  | _ => Raise TypeError
  end.

(** ** Strings *)

(** [name[0] == '.']; the name of a directory entry is never empty. *)
Definition is_hidden (name : string) : bool :=
  match name with
  | EmptyString => false
  | String c _ => Ascii.eqb c "."%char
  end.

(** [s.endswith(suffix)], which is what the patterns [*.crate], [*.crate~]
    and [*.crate~corrupted] of [Path.glob] test on a file name. *)
Definition ends_with (suffix s : string) : bool :=
  bool_decide (list_ascii_of_string suffix `suffix_of` list_ascii_of_string s).

(** [str.rfind(c)]: the index of the last occurrence. *)
Fixpoint rfind (c : ascii) (s : string) : option nat :=
  match s with
  | EmptyString => None
  | String a r =>
      match rfind c r with
      | Some i => Some (S i)
      | None => if Ascii.eqb a c then Some 0 else None
      end
  end.

(** [PurePath.suffix] of a one-component path. *)
Definition path_suffix (name : string) : string :=
  match rfind "."%char name with
  | Some i =>
      if (0 <? i)%nat && (i <? String.length name - 1)%nat
      then substring i (String.length name - i) name
      else EmptyString
  | None => EmptyString
  end.

(** [PurePath.with_suffix]; every suffix the program passes starts with a
    dot, so the ValueError for an invalid suffix is never raised. *)
Definition with_suffix (name suffix : string) : string :=
  let old := path_suffix name in
  substring 0 (String.length name - String.length old) name +:+ suffix.

(** [parent / name] *)
Definition path_join (parent name : string) : string :=
  if ends_with "/" parent then parent +:+ name else parent +:+ "/" +:+ name.

Definition newline : string := String (ascii_of_nat 10) EmptyString.

(** [shlex.quote] *)
Definition shlex_safe (c : ascii) : bool :=
  let n := N_of_ascii c in
  ((48 <=? n) && (n <=? 57) || (65 <=? n) && (n <=? 90) || (97 <=? n) && (n <=? 122)
   || (n =? 95) || (n =? 64) || (n =? 37) || (n =? 43) || (n =? 61) || (n =? 58)
   || (n =? 44) || (n =? 46) || (n =? 47) || (n =? 45))%N.

Definition squote : ascii := ascii_of_nat 39.
Definition dquote : ascii := ascii_of_nat 34.

Fixpoint shlex_escape (s : string) : string :=
  match s with
  | EmptyString => EmptyString
  | String c r =>
      if Ascii.eqb c squote
      then String squote (String dquote (String squote (String dquote
             (String squote (shlex_escape r)))))
      else String c (shlex_escape r)
  end.

Definition shlex_quote (s : string) : string :=
  match s with
  | EmptyString => String squote (String squote EmptyString)
  | _ =>
      if forallb shlex_safe (list_ascii_of_string s) then s
      else String squote (shlex_escape s) +:+ String squote EmptyString
  end.

(** [bytes.hex()] *)
Definition hexdigit (n : N) : ascii :=
  ascii_of_N (if (n <? 10)%N then 48 + n else 87 + n)%N.

Fixpoint hex (bs : bytes) : string :=
  match bs with
  | [] => EmptyString
  | b :: rest =>
      let n := Byte.to_N b in
      String (hexdigit (n / 16)) (String (hexdigit (n mod 16)) (hex rest))
  end.

(** [bytes.fromhex]: two hexadecimal digits per byte, ASCII whitespace
    between bytes skipped; None is the ValueError. *)
Definition hexval (c : ascii) : option N :=
  let n := N_of_ascii c in
  if (48 <=? n)%N && (n <=? 57)%N then Some (n - 48)%N
  else if (97 <=? n)%N && (n <=? 102)%N then Some (n - 87)%N
  else if (65 <=? n)%N && (n <=? 70)%N then Some (n - 55)%N
  else None.

Definition byte_of_N (n : N) : byte :=
  match Byte.of_N n with Some b => b | None => x00 end.

Fixpoint fromhex (s : string) : option bytes :=
  match s with
  | EmptyString => Some []
  | String c r =>
      if Ascii.is_space c then fromhex r
      else
        match r with
        | EmptyString => None
        | String d r' =>
            match hexval c, hexval d with
            | Some h, Some l => cons (byte_of_N (h * 16 + l)) <$> fromhex r'
            | _, _ => None
            end
        end
  end.

(** ** hashlib: SHA-256 (FIPS 180-4) on 32-bit words held in [Z] *)

Module SHA256.
Local Open Scope Z_scope.

Definition w32 (x : Z) : Z := x mod 2 ^ 32.
Definition add32 (x y : Z) : Z := w32 (x + y).
Definition rotr (n x : Z) : Z := Z.lor (Z.shiftr x n) (w32 (Z.shiftl x (32 - n))).
Definition not32 (x : Z) : Z := Z.lxor x 0xFFFFFFFF.
Definition Ch (x y z : Z) : Z := Z.lxor (Z.land x y) (Z.land (not32 x) z).
Definition Maj (x y z : Z) : Z :=
  Z.lxor (Z.lxor (Z.land x y) (Z.land x z)) (Z.land y z).
Definition Sigma0 (x : Z) : Z := Z.lxor (Z.lxor (rotr 2 x) (rotr 13 x)) (rotr 22 x).
Definition Sigma1 (x : Z) : Z := Z.lxor (Z.lxor (rotr 6 x) (rotr 11 x)) (rotr 25 x).
Definition sigma0 (x : Z) : Z := Z.lxor (Z.lxor (rotr 7 x) (rotr 18 x)) (Z.shiftr x 3).
Definition sigma1 (x : Z) : Z := Z.lxor (Z.lxor (rotr 17 x) (rotr 19 x)) (Z.shiftr x 10).

Definition byte_Z (b : byte) : Z := Z.of_N (Byte.to_N b).
Definition Z_byte (z : Z) : byte := byte_of_N (Z.to_N (z mod 256)).

(** Big-endian words of the padded message. *)
Fixpoint words (bs : list Z) : list Z :=
  match bs with
  | a :: b :: c :: d :: rest => (((a * 256 + b) * 256 + c) * 256 + d) :: words rest
  | _ => []
  end.

(** The constants, in the hexadecimal text of the standard: the first 32
    bits of the fractional parts of the cube roots of the first 64 primes,
    and of the square roots of the first 8. *)
Definition constants (text : string) : list Z :=
  words (List.map byte_Z (default [] (fromhex text))).

Definition K : list Z := Eval vm_compute in constants
  "428a2f98 71374491 b5c0fbcf e9b5dba5 3956c25b 59f111f1 923f82a4 ab1c5ed5
   d807aa98 12835b01 243185be 550c7dc3 72be5d74 80deb1fe 9bdc06a7 c19bf174
   e49b69c1 efbe4786 0fc19dc6 240ca1cc 2de92c6f 4a7484aa 5cb0a9dc 76f988da
   983e5152 a831c66d b00327c8 bf597fc7 c6e00bf3 d5a79147 06ca6351 14292967
   27b70a85 2e1b2138 4d2c6dfc 53380d13 650a7354 766a0abb 81c2c92e 92722c85
   a2bfe8a1 a81a664b c24b8b70 c76c51a3 d192e819 d6990624 f40e3585 106aa070
   19a4c116 1e376c08 2748774c 34b0bcb5 391c0cb3 4ed8aa4a 5b9cca4f 682e6ff3
   748f82ee 78a5636f 84c87814 8cc70208 90befffa a4506ceb bef9a3f7 c67178f2".

Definition H0 : list Z := Eval vm_compute in constants
  "6a09e667 bb67ae85 3c6ef372 a54ff53a 510e527f 9b05688c 1f83d9ab 5be0cd19".

Definition word_bytes (w : Z) : bytes :=
  [Z_byte (Z.shiftr w 24); Z_byte (Z.shiftr w 16); Z_byte (Z.shiftr w 8); Z_byte w].

Definition pad (msg : bytes) : list Z :=
  let n := Z.of_nat (List.length msg) in
  let zeros := Z.to_nat ((55 - n) mod 64) in
  let bits := n * 8 in
  List.map byte_Z msg ++ [0x80] ++ repeat 0 zeros
    ++ List.map (fun i => Z.shiftr bits (8 * i) mod 256) [7; 6; 5; 4; 3; 2; 1; 0].

(** The message schedule, newest word first. *)
Fixpoint schedule (n : nat) (ws : list Z) : list Z :=
  match n with
  | O => ws
  | S n' =>
      let w := add32 (add32 (sigma1 (nth 1 ws 0)) (nth 6 ws 0))
                     (add32 (sigma0 (nth 14 ws 0)) (nth 15 ws 0)) in
      schedule n' (w :: ws)
  end.

Definition round (st : list Z) (kw : Z * Z) : list Z :=
  match st with
  | [a; b; c; d; e; f; g; h] =>
      let t1 := add32 (add32 (add32 h (Sigma1 e)) (add32 (Ch e f g) (fst kw))) (snd kw) in
      let t2 := add32 (Sigma0 a) (Maj a b c) in
      [add32 t1 t2; a; b; c; add32 d t1; e; f; g]
  | _ => st
  end.

Definition compress (h : list Z) (block : list Z) : list Z :=
  let ws := rev (schedule 48 (rev block)) in
  let st := fold_left round (combine K ws) h in
  List.map (fun p => add32 (fst p) (snd p)) (combine h st).

Fixpoint blocks (n : nat) (ws : list Z) : list (list Z) :=
  match n with
  | O => []
  | S n' =>
      match ws with
      | [] => []
      | _ => firstn 16 ws :: blocks n' (skipn 16 ws)
      end
  end.

Definition sha256 (msg : bytes) : bytes :=
  let ws := words (pad msg) in
  List.concat (List.map word_bytes (fold_left compress (blocks (List.length ws) ws) H0)).

End SHA256.

(** A hashlib object: the bytes fed so far; the digest is a function of
    their concatenation. *)
Definition hasher := bytes.
Definition hashlib_new : hasher := [].
Definition hasher_update (h : hasher) (block : bytes) : hasher := h ++ block.
Definition hasher_digest (h : hasher) : bytes := SHA256.sha256 h.
#[global] Opaque SHA256.sha256.

(** ** Logging

    Every call on LOGGER is recorded with its level and its formatted
    message, whatever threshold the command line selected;
    [LOGGER.exception] records at ERROR (the traceback it appends is not
    part of the message). *)
Inductive level := DEBUG | INFO | WARNING | ERROR.

#[global] Instance level_eq_dec : EqDecision level.
Proof. solve_decision. Defined.

Definition log_entry : Type := level * string.

(** ** The environment *)

(** What the remote source answers to a GET of one URL. *)
Inductive response :=
| RespError (reason : string)
    (** urlopen raises URLError: no connection, or a non-success status *)
| RespBody (data : bytes)
    (** the reads deliver [data] block by block, then the empty block *)
| RespBroken (data : bytes) (msg : string).
    (** the reads deliver [data], then the next read raises an OSError *)

(** ** The index tree *)

(** A pack file holds its lines; a directory its entries, in the order
    [iterdir] lists them. *)
Inductive entry :=
| File (name : string) (lines : list string)
| Dir (name : string) (children : list entry).

Definition entry_name (e : entry) : string :=
  match e with File n _ | Dir n _ => n end.

Record Env := {
  json_loads : string -> option json;
    (** json.loads; None is json.JSONDecodeError *)
  py_str : json -> string;
    (** str(), as the conversion %s applies it *)
  urlopen : string -> response;
    (** the remote source, by URL *)
  git_fetch_reset : list entry -> option (list entry * string);
    (** the shell command of [update_index_repository] on the index tree:
        the refreshed tree and the command's output, or None when the
        command exits with a non-zero status *)
  cpu_count : nat
    (** mp.cpu_count() *)
}.

(** ** CrateVersion *)

Record CrateVersion := {
  name : json;
  vers : json;
  yanked : json;
  cksum : bytes
}.

(** ** Generators

    A generator that is run to its end: the items it yielded, the LOGGER
    calls it made, and the exception that ended it, if one did. *)
Record gen (A : Type) := {
  yielded : list A;
  logged : list log_entry;
  raised : option exn
}.
Arguments yielded {A} g.
Arguments logged {A} g.
Arguments raised {A} g.

Definition gen_done {A} : gen A := {| yielded := []; logged := []; raised := None |}.
Definition gen_raise {A} (e : exn) : gen A :=
  {| yielded := []; logged := []; raised := Some e |}.
Definition gen_log {A} (l : log_entry) : gen A :=
  {| yielded := []; logged := [l]; raised := None |}.
Definition gen_yield {A} (a : A) (rest : gen A) : gen A :=
  {| yielded := a :: yielded rest; logged := logged rest; raised := raised rest |}.

(** [yield from g1] followed by [g2]: [g2] runs only if [g1] ended
    without an exception. *)
Definition gen_seq {A} (g1 g2 : gen A) : gen A :=
  match raised g1 with
  | Some e => g1
  | None =>
      {| yielded := yielded g1 ++ yielded g2;
         logged := logged g1 ++ logged g2;
         raised := raised g2 |}
  end.

Definition gen_concat {A} (gs : list (gen A)) : gen A :=
  fold_right gen_seq gen_done gs.

(** [sorted] on the entries of one directory: paths with the same parent
    compare by their names, code point by code point. *)
Fixpoint insert_sorted {A} (key : A -> string) (x : A) (l : list A) : list A :=
  match l with
  | [] => [x]
  | y :: l' =>
      if String.leb (key x) (key y) then x :: y :: l'
      else y :: insert_sorted key x l'
  end.

Definition sorted {A} (key : A -> string) (l : list A) : list A :=
  fold_right (insert_sorted key) [] l.

Section Reader.
Context (E : Env).

(** [CrateVersion.fromjson] *)
Definition fromjson (line : string) : result CrateVersion :=
  match json_loads E line with
  | None => Raise JSONDecodeError
  | Some obj =>
      match getitem obj "name" with
      | Raise e => Raise e
      | Return n =>
      match getitem obj "vers" with
      | Raise e => Raise e
      | Return v =>
      match getitem obj "yanked" with
      | Raise e => Raise e
      | Return y =>
      match getitem obj "cksum" with
      | Raise e => Raise e
      | Return (JString h) =>
          match fromhex h with
          | Some c => Return {| name := n; vers := v; yanked := y; cksum := c |}
          | None => Raise ValueError
          end
      | Return _ => Raise TypeError
      end end end end
  end.

(** [CrateVersion.__repr__] *)
Definition repr (c : CrateVersion) : string :=
  "<" +:+ py_str E (name c) +:+ ":" +:+ py_str E (vers c) +:+ ">".

(** [get_crate_versions]: the try statement encloses the whole loop, so a
    JSONDecodeError ends the loop over the lines of this pack file; any
    other exception of [fromjson] leaves the generator. *)
Fixpoint get_crate_versions (packfile : string) (pack : list string)
  : gen CrateVersion :=
  match pack with
  | [] => gen_done
  | line :: rest =>
      match fromjson line with
      | Return c => gen_yield c (get_crate_versions packfile rest)
      | Raise JSONDecodeError =>
          gen_log (ERROR, "cannot parse " +:+ packfile +:+ " in index")
      | Raise e => gen_raise e
      end
  end.

(** One turn of the loop of [get_crates] on the entry [a] of [indexdir].
    The recursion is on the tree; [get_crates] below puts the turns in
    the order of [sorted]. *)
Fixpoint get_crates_entry (indexdir : string) (a : entry) : gen CrateVersion :=
  if is_hidden (entry_name a) || String.eqb (entry_name a) "config.json" then gen_done
  else
    match a with
    | Dir n children =>
        gen_concat
          (List.map snd
             (sorted fst
                (List.map
                   (fun c => (entry_name c, get_crates_entry (path_join indexdir n) c))
                   children)))
    | File n lines => get_crate_versions (path_join indexdir n) lines
    end.

(** [get_crates] *)
Definition get_crates (indexdir : string) (entries : list entry) : gen CrateVersion :=
  gen_concat (List.map (get_crates_entry indexdir) (sorted entry_name entries)).

End Reader.

(** ** The mirror directory and the effects on it *)

(** The effects that reach outside the process, in the order they happen. *)
Inductive event :=
| EvGit                                   (** the shell command on the index *)
| EvRequest (url : string)                (** urlopen *)
| EvCreate (path : string)                (** open(path, 'wb') *)
| EvAppend (path : string) (block : bytes)  (** write on the open file *)
| EvUnlink (path : string)
| EvRename (src dst : string).

#[global] Instance event_eq_dec : EqDecision event.
Proof. solve_decision. Defined.

Record state := {
  files : gmap string bytes;       (** the loose files, by name *)
  index : option (list entry);     (** the subdirectory index, when there is one *)
  log : list log_entry;
  trace : list event
}.

Definition set_files (f : gmap string bytes → gmap string bytes) (w : state) : state :=
  {| files := f (files w); index := index w; log := log w; trace := trace w |}.
Definition set_index (i : option (list entry)) (w : state) : state :=
  {| files := files w; index := i; log := log w; trace := trace w |}.
Definition add_log (l : list log_entry) (w : state) : state :=
  {| files := files w; index := index w; log := log w ++ l; trace := trace w |}.
Definition add_trace (ev : event) (w : state) : state :=
  {| files := files w; index := index w; log := log w; trace := trace w ++ [ev] |}.

(** State and exceptions: a computation returns or raises, and leaves a
    state behind in both cases. *)
Definition M (A : Type) : Type := state → result A * state.

#[global] Instance M_ret : MRet M := λ A a w, (Return a, w).
#[global] Instance M_bind : MBind M := λ A B k m w,
  match m w with
  | (Return a, w') => k a w'
  | (Raise e, w') => (Raise e, w')
  end.

Definition raise {A} (e : exn) : M A := λ w, (Raise e, w).

(** [try: body except ...: handler]; the handler answers None for an
    exception its except clauses do not match. *)
Definition try_except {A} (body : M A) (handler : exn → option (M A)) : M A := λ w,
  match body w with
  | (Return a, w') => (Return a, w')
  | (Raise e, w') =>
      match handler e with
      | Some h => h w'
      | None => (Raise e, w')
      end
  end.

Fixpoint for_each {A} (l : list A) (body : A → M unit) : M unit :=
  match l with
  | [] => mret tt
  | a :: rest => body a;; for_each rest body
  end.

Definition LOGGER (lvl : level) (msg : string) : M unit := λ w,
  (Return tt, add_log [(lvl, msg)] w).

Definition emit (ev : event) : M unit := λ w, (Return tt, add_trace ev w).

Definition path_exists (path : string) : M bool := λ w,
  (Return (bool_decide (is_Some (files w !! path))), w).

Definition open_rb (path : string) : M bytes := λ w,
  match files w !! path with
  | Some data => (Return data, w)
  | None => (Raise (FileNotFoundError path), w)
  end.

Definition unlink (path : string) : M unit := λ w,
  match files w !! path with
  | Some _ => (Return tt, add_trace (EvUnlink path) (set_files (delete path) w))
  | None => (Raise (FileNotFoundError path), w)
  end.

(** os.rename on POSIX: the destination is replaced. *)
Definition rename (src dst : string) : M unit := λ w,
  match files w !! src with
  | Some data =>
      (Return tt, add_trace (EvRename src dst)
                    (set_files (λ m, <[dst := data]> (delete src m)) w))
  | None => (Raise (FileNotFoundError src), w)
  end.

Definition open_wb (path : string) : M unit := λ w,
  (Return tt, add_trace (EvCreate path) (set_files <[path := []]> w)).

Definition write (path : string) (block : bytes) : M unit := λ w,
  (Return tt, add_trace (EvAppend path block)
                (set_files (λ m, <[path := default [] (m !! path) ++ block]> m) w)).

(** [Path.glob] with one of the three patterns: the names of the
    directory that end with the pattern's literal part. *)
Definition glob (suffix : string) : M (list string) := λ w,
  (Return (filter (λ n, ends_with suffix n = true) (map_to_list (files w)).*1), w).

(** The entries of the index directory, for [iterdir]. *)
Definition iterdir_index (indexdir : string) : M (list entry) := λ w,
  match index w with
  | Some entries => (Return entries, w)
  | None => (Raise (FileNotFoundError indexdir), w)
  end.

(** [list(g)] or [set(g)]: the generator is run to its end before
    anything else happens. *)
Definition consume {A} (g : gen A) : M (list A) := λ w,
  match raised g with
  | None => (Return (yielded g), add_log (logged g) w)
  | Some e => (Raise e, add_log (logged g) w)
  end.

Definition blocksize : nat := 8192.

(** One [read(blocksize)] on what is left of a stream; [broken] is the
    OSError waiting at its end, if any. *)
Definition stream_read (size : nat) (rest : bytes) (broken : option string)
  : result bytes :=
  match size, rest, broken with
  | S _, [], Some msg => Raise (OSError msg)
  | _, _, _ => Return (firstn size rest)
  end.

(** The loop of [get_hash]; a turn on a non-empty block consumes it, so
    the loop ends within [length data + 1] turns. *)
Fixpoint hash_blocks (turns size : nat) (rest : bytes) (h : hasher) : hasher :=
  match turns with
  | O => h
  | S turns' =>
      match firstn size rest with
      | [] => h
      | block => hash_blocks turns' size (skipn size rest) (hasher_update h block)
      end
  end.

(** [get_hash], with hkind='sha256' and raw=True as at its call site. *)
Definition get_hash (fpath : string) (size : nat) : M bytes :=
  data ← open_rb fpath;
  mret (hasher_digest (hash_blocks (S (length data)) size data hashlib_new)).

(** The blocks the loop of [retrieve_and_hash] writes. *)
Fixpoint chunks (turns size : nat) (rest : bytes) : list bytes :=
  match turns with
  | O => []
  | S turns' =>
      match firstn size rest with
      | [] => []
      | block => block :: chunks turns' size (skipn size rest)
      end
  end.

(** The loop of [retrieve_and_hash]. *)
Fixpoint retrieve_blocks (turns size : nat) (dst : string) (rest : bytes)
  (broken : option string) (h : hasher) : M hasher :=
  match turns with
  | O => mret h
  | S turns' =>
      match stream_read size rest broken with
      | Raise e => raise e
      | Return [] => mret h
      | Return block =>
          write dst block;;
          retrieve_blocks turns' size dst (skipn size rest) broken (hasher_update h block)
      end
  end.

(** The effects of one transfer of [data] from [url] into [dst]. *)
Definition transfer (url dst : string) (data : bytes) : list event :=
  [EvRequest url; EvCreate dst]
    ++ (EvAppend dst <$> chunks (S (length data)) blocksize data).

Section Program.
Context (E : Env).

(** [retrieve_and_hash], with hkind='sha256' and raw=True as at its call
    site and the fixed HEADERS. *)
Definition retrieve_and_hash (url dst : string) (size : nat) : M bytes :=
  emit (EvRequest url);;
  match urlopen E url with
  | RespError reason => raise (URLError reason)
  | RespBody data =>
      open_wb dst;;
      h ← retrieve_blocks (S (length data)) size dst data None hashlib_new;
      mret (hasher_digest h)
  | RespBroken data msg =>
      open_wb dst;;
      h ← retrieve_blocks (S (length data)) size dst data (Some msg) hashlib_new;
      mret (hasher_digest h)
  end.

(** The canonical file name and the URL of a record. *)
Definition crate_file (crate : CrateVersion) : string :=
  py_str E (name crate) +:+ "-" +:+ py_str E (vers crate) +:+ ".crate".

Definition crate_url (crate : CrateVersion) : string :=
  "https://crates.io/api/v1/crates/" +:+ py_str E (name crate) +:+ "/"
    +:+ py_str E (vers crate) +:+ "/download".

Definition crate_label (crate : CrateVersion) : string :=
  py_str E (name crate) +:+ ":" +:+ py_str E (vers crate).

(** The temporary and the quarantine name of a record, as
    [download_crate] derives them from the canonical one. *)
Definition crate_tmp (crate : CrateVersion) : string :=
  with_suffix (crate_file crate) ".crate~".

Definition crate_quarantine (crate : CrateVersion) : string :=
  with_suffix (crate_file crate) ".crate~corrupted".

(** The LOGGER calls of [download_crate]. *)
Definition log_skip (crate : CrateVersion) : log_entry :=
  (DEBUG, crate_label crate +:+ " skip").
Definition log_retry (crate : CrateVersion) : log_entry :=
  (WARNING, crate_label crate +:+ " invalid checksum retry").
Definition log_downloading (crate : CrateVersion) : log_entry :=
  (INFO, crate_label crate +:+ " downloading").
Definition log_downloaded (crate : CrateVersion) : log_entry :=
  (INFO, crate_label crate +:+ " downloaded").
Definition log_invalid (crate : CrateVersion) (hashv : bytes) : log_entry :=
  (WARNING, crate_label crate +:+ " downloaded with invalid checksum ("
              +:+ hex hashv +:+ " != " +:+ hex (cksum crate) +:+ ")").
Definition log_cannot (crate : CrateVersion) : log_entry :=
  (ERROR, py_str E (name crate) +:+ ": " +:+ py_str E (vers crate)
            +:+ " cannot download crate").

(** The second half of [download_crate], from "downloading" on. *)
Definition download_crate_fetch (crate : CrateVersion) : M unit :=
  let filepath := crate_file crate in
  LOGGER INFO (crate_label crate +:+ " downloading");;
  let filepath_tmp := with_suffix filepath ".crate~" in
  let url := crate_url crate in
  try_except
    (hashv ← retrieve_and_hash url filepath_tmp blocksize;
     if decide (hashv = cksum crate) then
       LOGGER INFO (crate_label crate +:+ " downloaded");;
       rename filepath_tmp filepath
     else
       LOGGER WARNING
         (crate_label crate +:+ " downloaded with invalid checksum ("
            +:+ hex hashv +:+ " != " +:+ hex (cksum crate) +:+ ")");;
       rename filepath_tmp (with_suffix filepath ".crate~corrupted"))
    (λ e,
       match e with
       | URLError reason =>
           Some (LOGGER ERROR
                   (py_str E (name crate) +:+ ": " +:+ py_str E (vers crate)
                      +:+ " cannot download crate");;
                 LOGGER INFO (url +:+ ", reason: " +:+ reason))
       | _ => None
       end).

(** [download_crate]; [cache] is the mirror directory, whose loose files
    the state holds by name. *)
Definition download_crate (cache : string) (crate : CrateVersion) : M unit :=
  let filepath := crate_file crate in
  present ← path_exists filepath;
  if (present : bool) then
    h ← get_hash filepath blocksize;
    if decide (h = cksum crate) then
      LOGGER DEBUG (crate_label crate +:+ " skip")
    else
      LOGGER WARNING (crate_label crate +:+ " invalid checksum retry");;
      unlink filepath;;
      download_crate_fetch crate
  else download_crate_fetch crate.

(** [dl]: every exception of the record is caught and logged.  (No user
    interrupt is delivered in this model.) *)
Definition dl (pair : string * CrateVersion) : M unit :=
  try_except (download_crate pair.1 pair.2)
    (λ _, Some (LOGGER ERROR "unexpected error")).

(** [cleanup], from the set of expected names on. *)
Definition cleanup_sweep (directory : string) (ks : list CrateVersion) : M unit :=
  let crates := List.map crate_file ks in
  paths ← glob ".crate";
  for_each paths (λ path,
    if bool_decide (path ∈ crates) then mret tt
    else
      LOGGER INFO ("remove " +:+ path_join directory path);;
      unlink path);;
  paths ← glob ".crate~";
  for_each paths (λ path,
    LOGGER INFO ("remove partial download " +:+ path_join directory path);;
    unlink path);;
  paths ← glob ".crate~corrupted";
  for_each paths (λ path,
    LOGGER INFO ("remove corrupted download " +:+ path_join directory path);;
    unlink path).

(** [cleanup] *)
Definition cleanup (directory : string) : M unit :=
  let indexdir := path_join directory "index" in
  entries ← iterdir_index indexdir;
  ks ← consume (get_crates E indexdir entries);
  cleanup_sweep directory ks.

(** [update_index_repository]: the except clause names CallProcessError,
    which is not defined, so a failing command ends in a NameError. *)
Definition update_index_repository (indexdir : string) : M unit :=
  let escaped := shlex_quote indexdir in
  let cmd := "cd " +:+ escaped
               +:+ "; git fetch origin master; git reset --hard origin/master" in
  LOGGER INFO "update index";;
  LOGGER DEBUG ("command: " +:+ cmd);;
  entries ← iterdir_index indexdir;
  emit EvGit;;
  match git_fetch_reset E entries with
  | Some (entries', output) =>
      (λ w, (Return tt, set_index (Some entries') w));;
      LOGGER DEBUG ("output:" +:+ newline +:+ output)
  | None => raise (NameError "CallProcessError")
  end.

(** The first half of [update], up to the list of records; None when
    [update] has returned for want of an index. *)
Definition update_crates (directory : string) : M (option (list CrateVersion)) :=
  let indexdir := path_join directory "index" in
  present ← (λ w, (Return (bool_decide (is_Some (index w))), w));
  if negb present then
    LOGGER ERROR "invalid local registry: no index";;
    mret None
  else
    update_index_repository indexdir;;
    entries ← iterdir_index indexdir;
    crates ← consume (get_crates E indexdir entries);
    LOGGER INFO (pretty (length crates) +:+ " crates to synchronize");;
    mret (Some crates).

(** The branch [parallel is 1] of [update].  The except clause names
    KeyboardError, which is not defined: an exception that reaches it
    ends in a NameError, which leaves the loop. *)
Fixpoint update_sequential (directory : string) (crates : list CrateVersion) : M unit :=
  match crates with
  | [] => mret tt
  | crate :: rest =>
      try_except (download_crate directory crate)
        (λ _, Some (raise (NameError "KeyboardError")));;
      update_sequential directory rest
  end.

(** The pool of the other branch.  Records leave the shared queue in
    order, at most [jobs] of them are with a worker at any time, and a
    record's [dl] takes effect at once when its worker completes it. *)
Record pool := {
  queued : list CrateVersion;
  running : list CrateVersion;
  world : state
}.

Inductive pool_step (jobs : nat) (directory : string) : pool → pool → Prop :=
| pool_dispatch crate rest run w :
    length run < jobs →
    pool_step jobs directory
      {| queued := crate :: rest; running := run; world := w |}
      {| queued := rest; running := run ++ [crate]; world := w |}
| pool_complete crate rest run1 run2 w :
    pool_step jobs directory
      {| queued := rest; running := run1 ++ crate :: run2; world := w |}
      {| queued := rest; running := run1 ++ run2;
         world := (dl (directory, crate) w).2 |}.

(** [for _ in pool.imap_unordered(dl, dir_crates): pass] *)
Definition imap_unordered (jobs : nat) (directory : string)
  (crates : list CrateVersion) (w w' : state) : Prop :=
  rtc (pool_step jobs directory)
    {| queued := crates; running := []; world := w |}
    {| queued := []; running := []; world := w' |}.

(** [update]; with a pool the outcome depends on the workers' schedule,
    so [update] relates a state to its possible outcomes. *)
Definition update (directory : string) (parallel : Z) (w : state)
  (out : result unit * state) : Prop :=
  match update_crates directory w with
  | (Raise e, w1) => out = (Raise e, w1)
  | (Return None, w1) => out = (Return tt, w1)
  | (Return (Some crates), w1) =>
      if decide (parallel = 1%Z) then out = update_sequential directory crates w1
      else
        let jobs := if decide (parallel ≤ 0)%Z then cpu_count E else Z.to_nat parallel in
        let w2 := add_log [(INFO, "start downloading with " +:+ pretty jobs +:+ " jobs")] w1 in
        match jobs with
        | O => out = (Raise ValueError, w2)
        | S _ => ∃ w3, imap_unordered jobs directory crates w2 w3 ∧ out = (Return tt, w3)
        end
  end.

(** The two commands of [main] that reach the synchronization core. *)
Inductive command :=
| CmdUpdate (dir : string) (parallel : Z)
| CmdCleanup (dir : string).

(** The status the process exits with: [main] returns nothing and never
    calls sys.exit, so the status is 0 unless an exception escapes. *)
Definition exit_status (r : result unit) : Z :=
  match r with
  | Return _ => 0
  | Raise _ => 1
  end.

(** [main], from the parsed options on. *)
Definition main (options : command) (w : state) (out : Z * state) : Prop :=
  match options with
  | CmdUpdate dir parallel =>
      ∃ r w', update dir parallel w (r, w') ∧ out = (exit_status r, w')
  | CmdCleanup dir => out = (exit_status (cleanup dir w).1, (cleanup dir w).2)
  end.

End Program.

(** ** A concrete environment

    The examples run the program on an environment whose decoder reads
    the part of JSON that index lines are made of: objects, arrays,
    strings with the two-character escapes, true, false, null and
    integers.  Text outside that part (a float, a \u escape) is refused
    by it, so the examples stay inside. *)
Module Mini.

Definition ws (c : ascii) : bool :=
  let n := N_of_ascii c in ((n =? 32) || (n =? 9) || (n =? 10) || (n =? 13))%N.

Fixpoint skip_ws (s : list ascii) : list ascii :=
  match s with
  | c :: r => if ws c then skip_ws r else s
  | [] => []
  end.

Definition unescape (c : ascii) : option ascii :=
  let n := N_of_ascii c in
  if (n =? 34)%N || (n =? 92)%N || (n =? 47)%N then Some c
  else if (n =? 98)%N then Some (ascii_of_nat 8)
  else if (n =? 102)%N then Some (ascii_of_nat 12)
  else if (n =? 110)%N then Some (ascii_of_nat 10)
  else if (n =? 114)%N then Some (ascii_of_nat 13)
  else if (n =? 116)%N then Some (ascii_of_nat 9)
  else None.

(** The characters of a string, after its opening quote. *)
Fixpoint chars (s : list ascii) : option (string * list ascii) :=
  match s with
  | [] => None
  | c :: r =>
      let n := N_of_ascii c in
      if (n =? 34)%N then Some (EmptyString, r)
      else if (n =? 92)%N then
        match r with
        | e :: r' =>
            match unescape e, chars r' with
            | Some a, Some (str, rest) => Some (String a str, rest)
            | _, _ => None
            end
        | [] => None
        end
      else if (n <? 32)%N then None
      else
        match chars r with
        | Some (str, rest) => Some (String c str, rest)
        | None => None
        end
  end.

Definition digit (c : ascii) : option Z :=
  let n := N_of_ascii c in
  if (48 <=? n)%N && (n <=? 57)%N then Some (Z.of_N (n - 48)) else None.

Fixpoint digits (acc : Z) (s : list ascii) : Z * list ascii :=
  match s with
  | c :: r =>
      match digit c with
      | Some d => digits (acc * 10 + d) r
      | None => (acc, s)
      end
  | [] => (acc, [])
  end.

(** An integer: 0, or a non-zero digit and more digits; what follows
    must not turn it into a float. *)
Definition natural (s : list ascii) : option (Z * list ascii) :=
  match s with
  | c :: r =>
      match digit c with
      | Some 0%Z =>
          match r with
          | d :: _ =>
              if is_Some_dec (digit d) then None
              else if Ascii.eqb d "."%char || Ascii.eqb d "e"%char || Ascii.eqb d "E"%char
              then None else Some (0%Z, r)
          | [] => Some (0%Z, r)
          end
      | Some d0 =>
          let '(z, rest) := digits d0 r in
          match rest with
          | d :: _ =>
              if Ascii.eqb d "."%char || Ascii.eqb d "e"%char || Ascii.eqb d "E"%char
              then None else Some (z, rest)
          | [] => Some (z, rest)
          end
      | None => None
      end
  | [] => None
  end.

Definition literal (word : string) (s : list ascii) : option (list ascii) :=
  let w := list_ascii_of_string word in
  if decide (take (length w) s = w) then Some (drop (length w) s) else None.

Fixpoint value (fuel : nat) (s : list ascii) : option (json * list ascii) :=
  match fuel with
  | O => None
  | S fuel' =>
      match skip_ws s with
      | c :: r =>
          let n := N_of_ascii c in
          if (n =? 123)%N then
            match skip_ws r with
            | d :: r' =>
                if (N_of_ascii d =? 125)%N then Some (JObject [], r')
                else members fuel' r []
            | [] => None
            end
          else if (n =? 91)%N then
            match skip_ws r with
            | d :: r' =>
                if (N_of_ascii d =? 93)%N then Some (JArray [], r')
                else elements fuel' r []
            | [] => None
            end
          else if (n =? 34)%N then
            match chars r with
            | Some (str, rest) => Some (JString str, rest)
            | None => None
            end
          else if (n =? 45)%N then
            match natural r with
            | Some (z, rest) => Some (JInt (- z), rest)
            | None => None
            end
          else
            match literal "true" (c :: r), literal "false" (c :: r), literal "null" (c :: r) with
            | Some rest, _, _ => Some (JBool true, rest)
            | _, Some rest, _ => Some (JBool false, rest)
            | _, _, Some rest => Some (JNull, rest)
            | _, _, _ =>
                match natural (c :: r) with
                | Some (z, rest) => Some (JInt z, rest)
                | None => None
                end
            end
      | [] => None
      end
  end
with members (fuel : nat) (s : list ascii) (acc : list (string * json))
  : option (json * list ascii) :=
  match fuel with
  | O => None
  | S fuel' =>
      match skip_ws s with
      | q :: r =>
          if (N_of_ascii q =? 34)%N then
            match chars r with
            | Some (key, rest) =>
                match skip_ws rest with
                | colon :: rest' =>
                    if (N_of_ascii colon =? 58)%N then
                      match value fuel' rest' with
                      | Some (v, rest'') =>
                          match skip_ws rest'' with
                          | d :: tail =>
                              if (N_of_ascii d =? 44)%N
                              then members fuel' tail (acc ++ [(key, v)])
                              else if (N_of_ascii d =? 125)%N
                              then Some (JObject (acc ++ [(key, v)]), tail)
                              else None
                          | [] => None
                          end
                      | None => None
                      end
                    else None
                | [] => None
                end
            | None => None
            end
          else None
      | [] => None
      end
  end
with elements (fuel : nat) (s : list ascii) (acc : list json)
  : option (json * list ascii) :=
  match fuel with
  | O => None
  | S fuel' =>
      match value fuel' s with
      | Some (v, rest) =>
          match skip_ws rest with
          | d :: tail =>
              if (N_of_ascii d =? 44)%N then elements fuel' tail (acc ++ [v])
              else if (N_of_ascii d =? 93)%N then Some (JArray (acc ++ [v]), tail)
              else None
          | [] => None
          end
      | None => None
      end
  end.

(** The whole line must be one value, white space apart. *)
Definition loads (line : string) : option json :=
  let s := list_ascii_of_string line in
  match value (S (length s)) s with
  | Some (v, rest) =>
      match skip_ws rest with
      | [] => Some v
      | _ => None
      end
  | None => None
  end.

(** repr(), exact on the values whose strings need no escape. *)
Fixpoint py_repr (v : json) : string :=
  match v with
  | JNull => "None"
  | JBool true => "True"
  | JBool false => "False"
  | JInt z => pretty z
  | JFloat r => r
  | JString s => "'" +:+ s +:+ "'"
  | JArray items => "[" +:+ String.concat ", " (List.map py_repr items) +:+ "]"
  | JObject items =>
      "{" +:+ String.concat ", "
                (List.map (λ '(k, x), "'" +:+ k +:+ "': " +:+ py_repr x) items) +:+ "}"
  end.

Definition str (v : json) : string :=
  match v with
  | JString s => s
  | _ => py_repr v
  end.

(** JSON text is written with ' for the double quote. *)
Fixpoint dq (s : string) : string :=
  match s with
  | EmptyString => EmptyString
  | String c r => String (if Ascii.eqb c squote then dquote else c) (dq r)
  end.

Definition env (net : string → response) : Env :=
  {| json_loads := loads;
     py_str := str;
     urlopen := net;
     git_fetch_reset := λ entries, Some (entries, EmptyString);
     cpu_count := 4 |}.

Definition empty : state :=
  {| files := ∅; index := Some []; log := []; trace := [] |}.

End Mini.


(** Three records and the payloads behind them, for the examples. *)
Definition abc : bytes := list_byte_of_string "abc".
Definition xyz : bytes := list_byte_of_string "xyz".

Definition foo_line : string :=
  Mini.dq "{'name': 'foo', 'vers': '1.0.0', 'deps': [], 'cksum': 'ba7816bf8f01cfea414140de5dae2223b00361a396177a9cb410ff61f20015ad', 'features': {}, 'yanked': false}".

Definition bar_line : string :=
  Mini.dq "{'name': 'bar', 'vers': '0.2.0', 'deps': [], 'cksum': 'ba7816bf8f01cfea414140de5dae2223b00361a396177a9cb410ff61f20015ad', 'features': {}, 'yanked': true}".

Definition foo : CrateVersion :=
  {| name := JString "foo"; vers := JString "1.0.0"; yanked := JBool false;
     cksum := SHA256.sha256 abc |}.

Definition bar : CrateVersion :=
  {| name := JString "bar"; vers := JString "0.2.0"; yanked := JBool true;
     cksum := SHA256.sha256 abc |}.

Definition yanked_foo : CrateVersion :=
  {| name := JString "foo"; vers := JString "1.0.0"; yanked := JBool true;
     cksum := SHA256.sha256 abc |}.

(** A source that serves [abc] for every URL, one that serves [xyz], one
    that refuses every connection, and one whose transfers break after
    two bytes. *)
Definition serve_abc : Env := Mini.env (λ _, RespBody abc).
Definition serve_xyz : Env := Mini.env (λ _, RespBody xyz).
Definition refuse : Env := Mini.env (λ _, RespError "<urlopen error [Errno 111] Connection refused>").
Definition break_off : Env :=
  Mini.env (λ _, RespBroken (list_byte_of_string "ab") "[Errno 104] Connection reset by peer").

Definition with_file (path : string) (data : bytes) (w : state) : state :=
  set_files <[path := data]> w.

(** A directory with one file of each kind, and an index with the one
    record [foo]. *)
Definition attic : state :=
  {| files := list_to_map [("foo-1.0.0.crate", abc); ("bar-0.2.0.crate", abc);
                           ("foo-1.0.0.crate~", xyz); ("baz-3.crate~corrupted", xyz);
                           ("README", [])];
     index := Some [File "config.json" ["{}"]; Dir "3" [Dir "f" [File "foo" [foo_line]]]];
     log := []; trace := [] |}.

(** An index with one pack file of three lines, the second of which is
    not JSON. *)
Definition torn_index : list entry :=
  [File "config.json" ["{}"];
   Dir "3" [Dir "f" [File "foo" [foo_line; "{"; bar_line]]]].

(** An index with the two records [foo] and [bar], each in its pack file. *)
Definition two_crates : state :=
  {| files := ∅;
     index := Some [Dir "3" [Dir "f" [File "foo" [foo_line]];
                             Dir "b" [File "bar" [bar_line]]]];
     log := []; trace := [] |}.

(** Two records with the same canonical file name [a-b-1.crate]: version
    [b-1] of [a], whose checksum is that of the empty payload, and version
    [1] of [a-b], whose checksum is that of [abc].  The source serves
    [abc] for [a-b] and [xyz] for [a]. *)
Definition a_line : string :=
  Mini.dq "{'name': 'a', 'vers': 'b-1', 'cksum': 'e3b0c44298fc1c149afbf4c8996fb92427ae41e4649b934ca495991b7852b855', 'yanked': false}".

Definition a_b_line : string :=
  Mini.dq "{'name': 'a-b', 'vers': '1', 'cksum': 'ba7816bf8f01cfea414140de5dae2223b00361a396177a9cb410ff61f20015ad', 'yanked': false}".

Definition crate_a : CrateVersion :=
  {| name := JString "a"; vers := JString "b-1"; yanked := JBool false;
     cksum := SHA256.sha256 [] |}.

Definition crate_a_b : CrateVersion :=
  {| name := JString "a-b"; vers := JString "1"; yanked := JBool false;
     cksum := SHA256.sha256 abc |}.

Definition colliding : Env :=
  Mini.env (λ url,
    if String.eqb url "https://crates.io/api/v1/crates/a-b/1/download"
    then RespBody abc else RespBody xyz).

Definition collision : state :=
  {| files := ∅;
     index := Some [Dir "1" [File "a" [a_line]];
                    Dir "3" [Dir "a" [File "a-b" [a_b_line]]]];
     log := []; trace := [] |}.

(** ** Vocabulary of the statements *)

Section Vocabulary.
Context (E : Env).

Definition crate_base (crate : CrateVersion) : string :=
  py_str E (name crate) +:+ "-" +:+ py_str E (vers crate).

(** A name that the loop of [get_crates] does not skip. *)
Definition visible (n : string) : Prop :=
  is_hidden n || String.eqb n "config.json" = false.

(** The pack files [get_crates] reaches from the entries of a directory,
    with their paths. *)
Inductive pack_in : string → list entry → string → list string → Prop :=
| pack_here indexdir entries n lines :
    File n lines ∈ entries → visible n →
    pack_in indexdir entries (path_join indexdir n) lines
| pack_below indexdir entries n children packfile lines :
    Dir n children ∈ entries → visible n →
    pack_in (path_join indexdir n) children packfile lines →
    pack_in indexdir entries packfile lines.

(** The records of the lines of a pack file that come before its first
    line that does not decode. *)
Fixpoint decoded_prefix (lines : list string) : list CrateVersion :=
  match lines with
  | [] => []
  | line :: rest =>
      match fromjson E line with
      | Return c => c :: decoded_prefix rest
      | Raise _ => []
      end
  end.

(** Lines that decode, or fail to as JSON. *)
Definition json_or_record (lines : list string) : Prop :=
  ∀ line e, line ∈ lines → fromjson E line = Raise e → e = JSONDecodeError.

Definition parse_error (packfile : string) : log_entry :=
  (ERROR, "cannot parse " +:+ packfile +:+ " in index").

(** What a generator read from a family of pack files: it ended without
    an exception, yielded the decoded prefix of each, and logged one
    error for each that has a line that is not JSON. *)
Definition reads (g : gen CrateVersion) (packs : string → list string → Prop) : Prop :=
  raised g = None
  ∧ (∀ c, c ∈ yielded g ↔ ∃ p lines, packs p lines ∧ c ∈ decoded_prefix lines)
  ∧ (∀ l, l ∈ logged g ↔
       ∃ p lines, packs p lines ∧ l = parse_error p
                  ∧ ∃ line, line ∈ lines ∧ fromjson E line = Raise JSONDecodeError).

(** The remote source does not deliver a whole payload for the record. *)
Definition fetch_fails (crate : CrateVersion) : Prop :=
  match urlopen E (crate_url E crate) with
  | RespBody _ => False
  | _ => True
  end.

(** Two records that differ at most in their yanked flag. *)
Definition same_but_yanked (c c' : CrateVersion) : Prop :=
  name c = name c' ∧ vers c = vers c' ∧ cksum c = cksum c'.

(** Two pools whose records differ at most in their yanked flags. *)
Definition pool_alike (p p' : pool) : Prop :=
  Forall2 same_but_yanked (queued p) (queued p')
  ∧ Forall2 same_but_yanked (running p) (running p')
  ∧ world p = world p'.

(** The files after [download_crate], as a function of the files before:
    after the fetch, and for the whole record. *)
Definition fetch_files (crate : CrateVersion) (m : gmap string bytes) : gmap string bytes :=
  match urlopen E (crate_url E crate) with
  | RespError _ => m
  | RespBody data =>
      if decide (SHA256.sha256 data = cksum crate)
      then <[crate_file E crate := data]> (delete (crate_tmp E crate) m)
      else <[crate_quarantine E crate := data]> (delete (crate_tmp E crate) m)
  | RespBroken data _ => <[crate_tmp E crate := data]> m
  end.

Definition download_files (crate : CrateVersion) (m : gmap string bytes) : gmap string bytes :=
  match m !! crate_file E crate with
  | Some data =>
      if decide (SHA256.sha256 data = cksum crate) then m
      else fetch_files crate (delete (crate_file E crate) m)
  | None => fetch_files crate m
  end.

Definition sync_files (crates : list CrateVersion) (m : gmap string bytes) : gmap string bytes :=
  foldl (λ m crate, download_files crate m) m crates.

(** The three paths [download_crate] may touch for a record. *)
Definition footprint (crate : CrateVersion) (path : string) : Prop :=
  path = crate_file E crate ∨ path = crate_tmp E crate ∨ path = crate_quarantine E crate.

(** The transfer for the record breaks off after it has started. *)
Definition transfer_breaks (crate : CrateVersion) : Prop :=
  ∃ data msg, urlopen E (crate_url E crate) = RespBroken data msg.

(** The records [update] synchronizes from a state. *)
Definition sync_records (directory : string) (w : state) : list CrateVersion :=
  match update_crates E directory w with
  | (Return (Some crates), _) => crates
  | _ => []
  end.

(** The record's artifact is already committed with the right digest. *)
Definition up_to_date (crate : CrateVersion) (w : state) : Prop :=
  ∃ data, files w !! crate_file E crate = Some data ∧ SHA256.sha256 data = cksum crate.

(** The names [Path.glob] returns, and a directory after the removal of
    some names. *)
Definition glob_names (suffix : string) (m : gmap string bytes) : list string :=
  filter (λ n, ends_with suffix n = true) (map_to_list m).*1.

Definition remove_all (names : list string) (m : gmap string bytes) : gmap string bytes :=
  foldl (λ m n, delete n m) m names.

(** What [cleanup] removes in its three loops, given the expected names. *)
Definition stale (crates : list string) (m : gmap string bytes) : list string :=
  filter (λ p, bool_decide (p ∈ crates) = false) (glob_names ".crate" m).

Definition swept (crates : list string) (m : gmap string bytes) : gmap string bytes :=
  let m1 := remove_all (stale crates m) m in
  let m2 := remove_all (glob_names ".crate~" m1) m1 in
  remove_all (glob_names ".crate~corrupted" m2) m2.

Definition unlinked (crates : list string) (m : gmap string bytes) : list string :=
  let m1 := remove_all (stale crates m) m in
  let m2 := remove_all (glob_names ".crate~" m1) m1 in
  stale crates m ++ glob_names ".crate~" m1 ++ glob_names ".crate~corrupted" m2.

(** The canonical file names of the records the index yields: the set
    [crates] of [cleanup]. *)
Definition expected_names (directory : string) (w : state) : list string :=
  match index w with
  | Some entries =>
      crate_file E <$> yielded (get_crates E (path_join directory "index") entries)
  | None => []
  end.

(** The three naming conventions of the mirror directory. *)
Definition is_committed (path : string) : bool := ends_with ".crate" path.
Definition is_partial (path : string) : bool := ends_with ".crate~" path.
Definition is_quarantined (path : string) : bool := ends_with ".crate~corrupted" path.

End Vocabulary.

(** ** Vocabulary of the further properties *)

(** The exception of the first line of a pack file that does not decode. *)
Fixpoint first_failure (E : Env) (lines : list string) : option exn :=
  match lines with
  | [] => None
  | line :: rest =>
      match fromjson E line with
      | Return _ => first_failure E rest
      | Raise e => Some e
      end
  end.

(** A pack file that [get_crate_versions] reads without raising: all its
    lines decode, or the first that does not fails as JSON. *)
Definition tame (E : Env) (lines : list string) : Prop :=
  first_failure E lines = None ∨ first_failure E lines = Some JSONDecodeError.

(** The state after [dl] on each record of a list, in the order of the
    list. *)
Definition dl_all (E : Env) (directory : string) (order : list CrateVersion) (w : state)
  : state :=
  foldl (λ w crate, (dl E (directory, crate) w).2) w order.

(** The remote source serves the record a payload with the record's
    checksum as its digest. *)
Definition served (E : Env) (crate : CrateVersion) : Prop :=
  ∃ data, urlopen E (crate_url E crate) = RespBody data
          ∧ SHA256.sha256 data = cksum crate.

(** What [update] leaves with one job. *)
Definition update_one_job (E : Env) (directory : string) (w : state)
  : result unit * state :=
  match update_crates E directory w with
  | (Raise e, w1) => (Raise e, w1)
  | (Return None, w1) => (Return tt, w1)
  | (Return (Some crates), w1) => update_sequential E directory crates w1
  end.

(** A source that serves [abc], behind an index whose refresh fails. *)
Definition offline : Env :=
  {| json_loads := Mini.loads;
     py_str := Mini.str;
     urlopen := λ _, RespBody abc;
     git_fetch_reset := λ _, None;
     cpu_count := 4 |}.



(** A mirror directory without an index. *)
Definition bare : state :=
  {| files := list_to_map [("foo-1.0.0.crate", abc); ("foo-1.0.0.crate~", xyz)];
     index := None; log := []; trace := [] |}.

(** * Properties *)

(** ** Strings and file names *)

Lemma string_app_nil (b : string) : EmptyString +:+ b = b.
Proof. reflexivity. Qed.

Lemma string_app_cons (c : ascii) (a b : string) : String c a +:+ b = String c (a +:+ b).
Proof. reflexivity. Qed.

(** Closed decidable statements, by evaluation. *)
Ltac by_compute := apply (bool_decide_unpack _); vm_compute; exact I.

Ltac string_simpl := rewrite ?string_app_cons, ?string_app_nil; simpl.

Lemma list_ascii_app (a b : string) :
  list_ascii_of_string (a +:+ b) = list_ascii_of_string a ++ list_ascii_of_string b.
Proof. induction a as [|c a IH]; string_simpl; [done|]. by rewrite IH. Qed.

Lemma list_ascii_inj (a b : string) :
  list_ascii_of_string a = list_ascii_of_string b → a = b.
Proof.
  intros H. rewrite <- (string_of_list_ascii_of_string a),
    <- (string_of_list_ascii_of_string b). by rewrite H.
Qed.

Lemma string_app_assoc (a b c : string) : (a +:+ b) +:+ c = a +:+ b +:+ c.
Proof. induction a as [|x a IH]; string_simpl; [done|]. by rewrite IH. Qed.

Lemma string_app_inj_r (a b c : string) : a +:+ c = b +:+ c → a = b.
Proof.
  intros H. apply list_ascii_inj.
  apply (f_equal list_ascii_of_string) in H. rewrite !list_ascii_app in H.
  by apply app_inv_tail in H.
Qed.

Lemma string_app_length (a b : string) :
  String.length (a +:+ b) = String.length a + String.length b.
Proof. induction a as [|x a IH]; string_simpl; [done|]. by rewrite IH. Qed.

Lemma ends_with_spec (suffix s : string) :
  ends_with suffix s = true ↔ ∃ base, s = base +:+ suffix.
Proof.
  unfold ends_with. rewrite bool_decide_eq_true. split.
  - intros [k Hk]. exists (string_of_list_ascii k). apply list_ascii_inj.
    by rewrite list_ascii_app, list_ascii_of_string_of_list_ascii.
  - intros [base ->]. exists (list_ascii_of_string base). apply list_ascii_app.
Qed.

Lemma ends_with_app (base suffix : string) : ends_with suffix (base +:+ suffix) = true.
Proof. apply ends_with_spec. by exists base. Qed.

(** The last character decides between the three naming conventions. *)
Lemma ends_with_last (suffix s : string) (c1 c2 : ascii) (p1 p2 : string) :
  suffix = p1 +:+ String c1 EmptyString → s = p2 +:+ String c2 EmptyString →
  c1 ≠ c2 → ends_with suffix s = false.
Proof.
  intros -> -> Hne. apply not_true_is_false. intros [base Hb]%ends_with_spec.
  apply (f_equal list_ascii_of_string) in Hb.
  rewrite !list_ascii_app in Hb. simpl in Hb. rewrite app_assoc in Hb.
  apply app_inj_tail in Hb as [_ ?]. congruence.
Qed.

Lemma substring_app_l (a b : string) : substring 0 (String.length a) (a +:+ b) = a.
Proof. induction a as [|x a IH]; string_simpl; [by destruct b|]. by rewrite IH. Qed.

Lemma substring_app_r (a b : string) :
  substring (String.length a) (String.length b) (a +:+ b) = b.
Proof.
  induction a as [|x a IH]; string_simpl; [|done].
  induction b as [|y b IHb]; simpl; [done|]. by rewrite IHb.
Qed.

Lemma rfind_app_dot (a b : string) :
  rfind "."%char b = None →
  rfind "."%char (a +:+ String "."%char b) = Some (String.length a).
Proof.
  intros Hb. induction a as [|x a IH]; string_simpl.
  - by rewrite Hb.
  - by rewrite IH.
Qed.

(** [with_suffix] on a name that ends with [.crate] replaces that suffix. *)
Lemma with_suffix_crate (base suffix : string) :
  base ≠ EmptyString → with_suffix (base +:+ ".crate") suffix = base +:+ suffix.
Proof.
  intros Hne. unfold with_suffix, path_suffix.
  rewrite (rfind_app_dot base "crate") by done.
  rewrite string_app_length. simpl String.length.
  assert (0 < String.length base) by (destruct base; simpl; [done|lia]).
  replace (0 <? String.length base) with true by (symmetry; apply Nat.ltb_lt; lia).
  replace (String.length base <? String.length base + 6 - 1) with true
    by (symmetry; apply Nat.ltb_lt; lia).
  simpl andb. cbv iota.
  replace (String.length base + 6 - String.length base) with (String.length ".crate")
    by (simpl; lia).
  rewrite substring_app_r. simpl String.length.
  replace (String.length base + 6 - 6) with (String.length base) by lia.
  by rewrite substring_app_l.
Qed.

Section FileNames.
Context (E : Env).

Lemma crate_file_base crate : crate_file E crate = crate_base E crate +:+ ".crate".
Proof. unfold crate_file, crate_base. by rewrite !string_app_assoc. Qed.

Lemma crate_base_nonempty crate : crate_base E crate ≠ EmptyString.
Proof.
  unfold crate_base. intros H%(f_equal String.length).
  rewrite !string_app_length in H. simpl in H. lia.
Qed.

Lemma crate_tmp_eq crate : crate_tmp E crate = crate_file E crate +:+ "~".
Proof.
  unfold crate_tmp. rewrite crate_file_base, with_suffix_crate
    by apply crate_base_nonempty.
  by rewrite string_app_assoc.
Qed.

Lemma crate_quarantine_eq crate :
  crate_quarantine E crate = crate_file E crate +:+ "~corrupted".
Proof.
  unfold crate_quarantine. rewrite crate_file_base, with_suffix_crate
    by apply crate_base_nonempty.
  by rewrite string_app_assoc.
Qed.

Lemma string_last_ne (a b : string) (c d : ascii) (p q : string) :
  a = p +:+ String c EmptyString → b = q +:+ String d EmptyString → c ≠ d → a ≠ b.
Proof.
  intros -> -> Hne H. apply (f_equal list_ascii_of_string) in H.
  rewrite !list_ascii_app in H. simpl in H.
  apply app_inj_tail in H as [_ ?]. congruence.
Qed.

Lemma crate_file_last crate :
  crate_file E crate = (crate_base E crate +:+ ".crat") +:+ "e".
Proof. by rewrite crate_file_base, string_app_assoc. Qed.

Lemma crate_quarantine_last crate :
  crate_quarantine E crate = (crate_file E crate +:+ "~corrupte") +:+ "d".
Proof. by rewrite crate_quarantine_eq, string_app_assoc. Qed.

(** The three names of a record are distinct from one another, and from
    the names of a record with another canonical name. *)
Lemma crate_tmp_ne_file c1 c2 : crate_tmp E c1 ≠ crate_file E c2.
Proof.
  eapply string_last_ne; [apply crate_tmp_eq|apply crate_file_last|done].
Qed.

Lemma crate_quarantine_ne_file c1 c2 : crate_quarantine E c1 ≠ crate_file E c2.
Proof.
  eapply string_last_ne; [apply crate_quarantine_last|apply crate_file_last|done].
Qed.

Lemma crate_quarantine_ne_tmp c1 c2 : crate_quarantine E c1 ≠ crate_tmp E c2.
Proof.
  eapply string_last_ne; [apply crate_quarantine_last|apply crate_tmp_eq|done].
Qed.

Lemma crate_tmp_inj c1 c2 : crate_tmp E c1 = crate_tmp E c2 → crate_file E c1 = crate_file E c2.
Proof. rewrite !crate_tmp_eq. apply string_app_inj_r. Qed.

Lemma crate_quarantine_inj c1 c2 :
  crate_quarantine E c1 = crate_quarantine E c2 → crate_file E c1 = crate_file E c2.
Proof. rewrite !crate_quarantine_eq. apply string_app_inj_r. Qed.

End FileNames.

(** ** SHA-256 on the test vectors of the standard *)

Example sha256_empty :
  hex (SHA256.sha256 [])
  = "e3b0c44298fc1c149afbf4c8996fb92427ae41e4649b934ca495991b7852b855".
Proof. by_compute. Qed.

Example sha256_abc :
  hex (SHA256.sha256 abc)
  = "ba7816bf8f01cfea414140de5dae2223b00361a396177a9cb410ff61f20015ad".
Proof. by_compute. Qed.

Example sha256_two_blocks :
  hex (SHA256.sha256
         (list_byte_of_string "abcdbcdecdefdefgefghfghighijhijkijkljklmklmnlmnomnopnopq"))
  = "248d6a61d20638b8e5c026930c3e6039a33ce45964ff2167f6ecedd419db06c1".
Proof. by_compute. Qed.

Example fromhex_of_hex :
  fromhex (hex (SHA256.sha256 abc)) = Some (SHA256.sha256 abc).
Proof. by_compute. Qed.

(** ** The effects, run *)

Lemma state_eta (w : state) :
  w = {| files := files w; index := index w; log := log w; trace := trace w |}.
Proof. by destruct w. Qed.

Ltac state_simpl :=
  unfold LOGGER, emit, add_log, add_trace, set_files, set_index;
  cbn [files index log trace fst snd];
  rewrite <- ?app_assoc; cbn [app].

Lemma blocksize_pos : 0 < blocksize.
Proof. apply Nat.ltb_lt. vm_compute. reflexivity. Qed.

Lemma hash_blocks_all (turns size : nat) (rest : bytes) (h : hasher) :
  0 < size → length rest < turns → hash_blocks turns size rest h = h ++ rest.
Proof.
  intros Hsize. revert rest h.
  induction turns as [|turns IH]; intros rest h Hlen; [lia|].
  destruct size as [|size]; [lia|].
  destruct rest as [|b rest]; simpl.
  - by rewrite app_nil_r.
  - rewrite IH.
    + unfold hasher_update. rewrite <- app_assoc. simpl.
      by rewrite firstn_skipn.
    + simpl in Hlen. rewrite length_skipn. lia.
Qed.

(** [get_hash] returns the SHA-256 digest of the file, and changes nothing. *)
Lemma get_hash_run (fpath : string) (data : bytes) (w : state) :
  files w !! fpath = Some data →
  get_hash fpath blocksize w = (Return (SHA256.sha256 data), w).
Proof.
  intros Hf. unfold get_hash, mbind, M_bind, open_rb. rewrite Hf.
  unfold mret, M_ret, hasher_digest.
  by rewrite hash_blocks_all by (apply blocksize_pos || lia).
Qed.

Lemma get_hash_missing (fpath : string) (w : state) :
  files w !! fpath = None →
  get_hash fpath blocksize w = (Raise (FileNotFoundError fpath), w).
Proof. intros Hf. unfold get_hash, mbind, M_bind, open_rb. by rewrite Hf. Qed.

Lemma retrieve_blocks_run (turns size : nat) (dst : string) (rest cur : bytes)
  (broken : option string) (h : hasher) (w : state) :
  0 < size → length rest < turns → files w !! dst = Some cur →
  retrieve_blocks turns size dst rest broken h w =
    (match broken with
     | None => Return (h ++ rest)
     | Some msg => Raise (OSError msg)
     end,
     {| files := <[dst := cur ++ rest]> (files w);
        index := index w; log := log w;
        trace := trace w ++ (EvAppend dst <$> chunks turns size rest) |}).
Proof.
  intros Hsize. revert rest cur h w.
  induction turns as [|turns IH]; intros rest cur h w Hlen Hcur; [lia|].
  destruct size as [|size]; [lia|].
  destruct rest as [|b rest].
  - simpl. rewrite !app_nil_r, insert_id by done.
    destruct broken; unfold raise, mret, M_ret; by rewrite <- state_eta.
  - cbn [retrieve_blocks stream_read firstn chunks]. unfold mbind, M_bind, write.
    rewrite (IH _ (cur ++ b :: firstn size rest)).
    + cbn [files index log trace add_trace set_files]. rewrite Hcur. cbn [default].
      rewrite insert_insert_eq, !skipn_cons. f_equal.
      * destruct broken; [done|]. unfold hasher_update.
        by rewrite <- app_assoc, <- app_comm_cons, firstn_skipn.
      * f_equal.
        -- by rewrite <- app_assoc, <- app_comm_cons, firstn_skipn.
        -- rewrite <- app_assoc. done.
    + simpl in Hlen. rewrite length_skipn. simpl. lia.
    + cbn [files add_trace set_files]. rewrite Hcur. by rewrite lookup_insert_eq.
Qed.

Section Runs.
Context (E : Env).

Lemma retrieve_and_hash_run (url dst : string) (w : state) :
  retrieve_and_hash E url dst blocksize w =
    match urlopen E url with
    | RespError reason => (Raise (URLError reason), add_trace (EvRequest url) w)
    | RespBody data =>
        (Return (SHA256.sha256 data),
         {| files := <[dst := data]> (files w); index := index w; log := log w;
            trace := trace w ++ transfer url dst data |})
    | RespBroken data msg =>
        (Raise (OSError msg),
         {| files := <[dst := data]> (files w); index := index w; log := log w;
            trace := trace w ++ transfer url dst data |})
    end.
Proof.
  unfold retrieve_and_hash, mbind, M_bind, emit, open_wb, transfer.
  destruct (urlopen E url) as [reason|data|data msg]; [done| |].
  - rewrite (retrieve_blocks_run _ _ _ _ []) by
      (apply blocksize_pos || lia || apply lookup_insert_eq).
    cbn [files index log trace add_trace set_files app].
    by rewrite insert_insert_eq, <- ?app_assoc.
  - rewrite (retrieve_blocks_run _ _ _ _ []) by
      (apply blocksize_pos || lia || apply lookup_insert_eq).
    cbn [files index log trace add_trace set_files app].
    by rewrite insert_insert_eq, <- ?app_assoc.
Qed.

(** The second half of [download_crate], by the answer of the remote
    source. *)
Lemma download_crate_fetch_run (crate : CrateVersion) (w : state) :
  download_crate_fetch E crate w =
    let f := crate_file E crate in
    let t := crate_tmp E crate in
    let q := crate_quarantine E crate in
    let url := crate_url E crate in
    match urlopen E url with
    | RespError reason =>
        (Return tt,
         {| files := files w; index := index w;
            log := log w ++ [log_downloading E crate; log_cannot E crate;
                             (INFO, url +:+ ", reason: " +:+ reason)];
            trace := trace w ++ [EvRequest url] |})
    | RespBody data =>
        if decide (SHA256.sha256 data = cksum crate) then
          (Return tt,
           {| files := <[f := data]> (delete t (files w)); index := index w;
              log := log w ++ [log_downloading E crate; log_downloaded E crate];
              trace := trace w ++ transfer url t data ++ [EvRename t f] |})
        else
          (Return tt,
           {| files := <[q := data]> (delete t (files w)); index := index w;
              log := log w ++ [log_downloading E crate;
                               log_invalid E crate (SHA256.sha256 data)];
              trace := trace w ++ transfer url t data ++ [EvRename t q] |})
    | RespBroken data msg =>
        (Raise (OSError msg),
         {| files := <[t := data]> (files w); index := index w;
            log := log w ++ [log_downloading E crate];
            trace := trace w ++ transfer url t data |})
    end.
Proof.
  unfold download_crate_fetch, try_except, mbind, M_bind.
  fold (crate_tmp E crate) (crate_quarantine E crate).
  unfold LOGGER at 1. rewrite retrieve_and_hash_run. cbv zeta.
  destruct (urlopen E (crate_url E crate)) as [reason|data|data msg].
  - by state_simpl.
  - destruct (decide _) as [Heq|Hne].
    + unfold rename. state_simpl.
      rewrite lookup_insert_eq, delete_insert_eq. by state_simpl.
    + unfold rename. state_simpl.
      rewrite lookup_insert_eq, delete_insert_eq. by state_simpl.
  - by state_simpl.
Qed.

(** [download_crate], by what is at the canonical path. *)
Lemma download_crate_skip (cache : string) (crate : CrateVersion) (w : state) (data : bytes) :
  files w !! crate_file E crate = Some data →
  SHA256.sha256 data = cksum crate →
  download_crate E cache crate w = (Return tt, add_log [log_skip E crate] w).
Proof.
  intros Hf Hd. unfold download_crate, mbind, M_bind, path_exists.
  rewrite Hf, bool_decide_eq_true_2 by done.
  rewrite (get_hash_run _ data) by done.
  rewrite decide_True by done. by state_simpl.
Qed.

Lemma download_crate_retry (cache : string) (crate : CrateVersion) (w : state) (data : bytes) :
  files w !! crate_file E crate = Some data →
  SHA256.sha256 data ≠ cksum crate →
  download_crate E cache crate w =
    download_crate_fetch E crate
      (add_trace (EvUnlink (crate_file E crate))
         (set_files (delete (crate_file E crate)) (add_log [log_retry E crate] w))).
Proof.
  intros Hf Hd. unfold download_crate, mbind, M_bind, path_exists.
  rewrite Hf, bool_decide_eq_true_2 by done.
  rewrite (get_hash_run _ data) by done.
  rewrite decide_False by done.
  unfold unlink. state_simpl. by rewrite Hf.
Qed.

Lemma download_crate_absent (cache : string) (crate : CrateVersion) (w : state) :
  files w !! crate_file E crate = None →
  download_crate E cache crate w = download_crate_fetch E crate w.
Proof.
  intros Hf. unfold download_crate, mbind, M_bind, path_exists.
  rewrite Hf, bool_decide_eq_false_2; [done|]. by intros [? ?].
Qed.

End Runs.

(** ** The per-record state machine *)

Section Record.
Context (E : Env).

(** C2. A record whose committed file is present with the right digest is
    processed without any request and without any change to the
    directory: [download_crate] returns, the files and the trace of
    effects (requests, creations, writes, deletions, renames) are what
    they were, and only the "skip" line is logged. *)
Theorem up_to_date_is_skipped (cache : string) (crate : CrateVersion)
    (data : bytes) (w : state) :
  files w !! crate_file E crate = Some data →
  SHA256.sha256 data = cksum crate →
  ∃ w', download_crate E cache crate w = (Return tt, w')
        ∧ files w' = files w
        ∧ trace w' = trace w
        ∧ index w' = index w
        ∧ log w' = log w ++ [log_skip E crate].
Proof.
  intros Hf Hd. eexists. split; [by eapply download_crate_skip|]. done.
Qed.

(** Where a fetch takes place, the canonical path is vacant when
    [download_crate_fetch] starts. *)
Lemma download_crate_fetches (cache : string) (crate : CrateVersion) (w : state) :
  ¬ up_to_date E crate w →
  ∃ w0, download_crate E cache crate w = download_crate_fetch E crate w0
        ∧ files w0 = delete (crate_file E crate) (files w)
        ∧ index w0 = index w.
Proof.
  intros Hno. destruct (files w !! crate_file E crate) as [data|] eqn:Hf.
  - destruct (decide (SHA256.sha256 data = cksum crate)) as [Hd|Hd].
    { destruct Hno. by exists data. }
    eexists. split; [by eapply download_crate_retry|].
    by state_simpl.
  - exists w. split; [by apply download_crate_absent|].
    by rewrite delete_id.
Qed.

(** C3. When the payload fetched for a record has another digest than the
    record's checksum, [download_crate] returns with no file at the
    canonical path and with the downloaded bytes under the quarantine
    name, which is the canonical name followed by [~corrupted] and so
    never the canonical name; the warning it logs carries both digests in
    hexadecimal. *)
Theorem corrupt_payload_is_quarantined (cache : string) (crate : CrateVersion)
    (data : bytes) (w : state) :
  ¬ up_to_date E crate w →
  urlopen E (crate_url E crate) = RespBody data →
  SHA256.sha256 data ≠ cksum crate →
  ∃ w', download_crate E cache crate w = (Return tt, w')
        ∧ files w' !! crate_file E crate = None
        ∧ files w' !! crate_quarantine E crate = Some data
        ∧ crate_quarantine E crate = crate_file E crate +:+ "~corrupted"
        ∧ crate_quarantine E crate ≠ crate_file E crate
        ∧ (WARNING,
           crate_label E crate +:+ " downloaded with invalid checksum ("
             +:+ hex (SHA256.sha256 data) +:+ " != " +:+ hex (cksum crate) +:+ ")")
            ∈ log w'.
Proof.
  intros Hno Hresp Hd.
  destruct (download_crate_fetches cache crate w Hno) as (w0 & -> & Hf0 & _).
  rewrite download_crate_fetch_run. cbv zeta. rewrite Hresp, decide_False by done.
  eexists. split; [done|]. cbn [files log].
  assert (Hqf := crate_quarantine_ne_file E crate crate).
  assert (Htf := crate_tmp_ne_file E crate crate).
  repeat split.
  - rewrite lookup_insert_ne, lookup_delete_ne, Hf0 by done. apply lookup_delete_eq.
  - apply lookup_insert_eq.
  - apply crate_quarantine_eq.
  - done.
  - rewrite elem_of_app. right. set_solver.
Qed.

(** C10. A committed file with a wrong digest is unlinked before the
    request is made: the two effects follow each other in the trace.  So
    when the fetch then fails, whether at the connection or in the middle
    of the transfer, nothing is left at the canonical path. *)
Theorem stale_file_is_lost_on_failed_refetch (cache : string) (crate : CrateVersion)
    (data : bytes) (w : state) :
  files w !! crate_file E crate = Some data →
  SHA256.sha256 data ≠ cksum crate →
  let w' := (download_crate E cache crate w).2 in
  (∃ rest, trace w' = trace w ++ EvUnlink (crate_file E crate)
                                 :: EvRequest (crate_url E crate) :: rest)
  ∧ (fetch_fails E crate → files w' !! crate_file E crate = None).
Proof.
  intros Hf Hd. cbv zeta. rewrite (download_crate_retry E cache crate w data) by done.
  rewrite download_crate_fetch_run. cbv zeta. unfold fetch_fails, transfer.
  assert (Htf := crate_tmp_ne_file E crate crate).
  destruct (urlopen E (crate_url E crate)) as [reason|body|body msg].
  - state_simpl. split; [by eexists|]. intros _. apply lookup_delete_eq.
  - destruct (decide _); state_simpl; (split; [by eexists|done]).
  - state_simpl. split; [by eexists|]. intros _.
    rewrite lookup_insert_ne by done. apply lookup_delete_eq.
Qed.

(** C4, as the code has it.  A fetch that fails when the connection is
    opened (URLError: no connection, non-success status) writes nothing:
    [download_crate] returns, the temporary path is as it was, the error
    is logged with the record's name and version and then the URL and the
    cause, and the sequential loop goes on with the records that follow.
    A fetch that fails once the transfer has started leaves the bytes
    received at the temporary path and its exception leaves
    [download_crate]; in the pool [dl] logs it and returns. *)
Theorem failed_fetch_is_contained (cache : string) (crate : CrateVersion) (w : state) :
  ¬ up_to_date E crate w →
  match urlopen E (crate_url E crate) with
  | RespError reason =>
      ∃ w', download_crate E cache crate w = (Return tt, w')
            ∧ files w' !! crate_tmp E crate = files w !! crate_tmp E crate
            ∧ log_cannot E crate ∈ log w'
            ∧ (INFO, crate_url E crate +:+ ", reason: " +:+ reason) ∈ log w'
            ∧ dl E (cache, crate) w = (Return tt, w')
            ∧ ∀ rest, update_sequential E cache (crate :: rest) w
                      = update_sequential E cache rest w'
  | RespBroken received msg =>
      ∃ w', download_crate E cache crate w = (Raise (OSError msg), w')
            ∧ files w' !! crate_tmp E crate = Some received
            ∧ dl E (cache, crate) w = (Return tt, add_log [(ERROR, "unexpected error")] w')
  | RespBody _ => True
  end.
Proof.
  intros Hno.
  destruct (download_crate_fetches cache crate w Hno) as (w0 & Hrun & Hf0 & _).
  unfold dl, try_except. cbn [fst snd update_sequential]. unfold mbind, M_bind, try_except.
  rewrite Hrun, download_crate_fetch_run. cbv zeta.
  assert (Htf := crate_tmp_ne_file E crate crate).
  destruct (urlopen E (crate_url E crate)) as [reason|body|received msg]; [| done |].
  - eexists. split; [done|]. cbn [files log]. repeat split.
    + by rewrite Hf0, lookup_delete_ne.
    + rewrite elem_of_app. right. set_solver.
    + rewrite elem_of_app. right. set_solver.
  - eexists. split; [done|]. cbn [files]. split; [apply lookup_insert_eq|done].
Qed.

End Record.

Lemma up_to_date_is_skipped_witness :
  ∃ w', download_crate serve_abc "/m" foo (with_file "foo-1.0.0.crate" abc Mini.empty)
          = (Return tt, w')
        ∧ files w' = files (with_file "foo-1.0.0.crate" abc Mini.empty)
        ∧ trace w' = trace (with_file "foo-1.0.0.crate" abc Mini.empty)
        ∧ index w' = index (with_file "foo-1.0.0.crate" abc Mini.empty)
        ∧ log w' = log (with_file "foo-1.0.0.crate" abc Mini.empty) ++ [log_skip serve_abc foo].
Proof.
  apply (up_to_date_is_skipped serve_abc "/m" foo abc); vm_compute; reflexivity.
Defined.

Lemma nothing_committed (E : Env) (crate : CrateVersion) : ¬ up_to_date E crate Mini.empty.
Proof. intros (data & Hf & _). cbn [Mini.empty files] in Hf. by rewrite lookup_empty in Hf. Qed.

Lemma corrupt_payload_is_quarantined_witness :
  ∃ w', download_crate serve_xyz "/m" foo Mini.empty = (Return tt, w')
        ∧ files w' !! crate_file serve_xyz foo = None
        ∧ files w' !! crate_quarantine serve_xyz foo = Some xyz
        ∧ crate_quarantine serve_xyz foo = crate_file serve_xyz foo +:+ "~corrupted"
        ∧ crate_quarantine serve_xyz foo ≠ crate_file serve_xyz foo
        ∧ (WARNING,
           crate_label serve_xyz foo +:+ " downloaded with invalid checksum ("
             +:+ hex (SHA256.sha256 xyz) +:+ " != " +:+ hex (cksum foo) +:+ ")")
            ∈ log w'.
Proof.
  apply (corrupt_payload_is_quarantined serve_xyz "/m" foo xyz Mini.empty).
  - apply nothing_committed.
  - reflexivity.
  - vm_compute. discriminate.
Defined.

Lemma stale_file_is_lost_on_failed_refetch_witness :
  let w := with_file "foo-1.0.0.crate" xyz Mini.empty in
  let w' := (download_crate refuse "/m" foo w).2 in
  (∃ rest, trace w' = trace w ++ EvUnlink (crate_file refuse foo)
                                 :: EvRequest (crate_url refuse foo) :: rest)
  ∧ (fetch_fails refuse foo → files w' !! crate_file refuse foo = None).
Proof.
  apply (stale_file_is_lost_on_failed_refetch refuse "/m" foo xyz).
  - vm_compute. reflexivity.
  - vm_compute. discriminate.
Defined.

Lemma failed_fetch_is_contained_witness :
  ∃ w', download_crate refuse "/m" foo Mini.empty = (Return tt, w')
        ∧ files w' !! crate_tmp refuse foo = files Mini.empty !! crate_tmp refuse foo
        ∧ log_cannot refuse foo ∈ log w'
        ∧ (INFO, crate_url refuse foo +:+ ", reason: "
                   +:+ "<urlopen error [Errno 111] Connection refused>") ∈ log w'
        ∧ dl refuse ("/m", foo) Mini.empty = (Return tt, w')
        ∧ ∀ rest, update_sequential refuse "/m" (foo :: rest) Mini.empty
                  = update_sequential refuse "/m" rest w'.
Proof.
  exact (failed_fetch_is_contained refuse "/m" foo Mini.empty (nothing_committed refuse foo)).
Defined.

(** C4, as stated, fails on a transfer that breaks off: the two bytes
    received stay at the temporary path. *)
Lemma partial_file_is_left_behind :
  fetch_fails break_off foo
  ∧ (download_crate break_off "/m" foo Mini.empty).1
      = Raise (OSError "[Errno 104] Connection reset by peer")
  ∧ files (download_crate break_off "/m" foo Mini.empty).2 !! "foo-1.0.0.crate~"
      = Some (list_byte_of_string "ab").
Proof. vm_compute. done. Qed.

(** It also fails through a file left at the temporary path by an earlier
    run, which a refused connection does not touch. *)
Example leftover_file_is_not_removed :
  fetch_fails refuse foo
  ∧ files (download_crate refuse "/m" foo (with_file "foo-1.0.0.crate~" xyz Mini.empty)).2
      !! "foo-1.0.0.crate~" = Some xyz.
Proof. vm_compute. done. Qed.

(** ** The coordinator without an index *)

Section NoIndex.
Context (E : Env).

Lemma update_crates_no_index (directory : string) (w : state) :
  index w = None →
  update_crates E directory w
  = (Return None, add_log [(ERROR, "invalid local registry: no index")] w).
Proof.
  intros Hi. unfold update_crates, mbind, M_bind. rewrite Hi.
  rewrite bool_decide_eq_false_2 by (by intros [? ?]). done.
Qed.

Lemma main_update_no_index (dir : string) (parallel : Z) (w : state) (out : Z * state) :
  index w = None →
  main E (CmdUpdate dir parallel) w out
  ↔ out = (0%Z, add_log [(ERROR, "invalid local registry: no index")] w).
Proof.
  intros Hi. unfold main, update. rewrite update_crates_no_index by done. split.
  - intros (r & w' & Hup & ->). by injection Hup as -> ->.
  - intros ->. by eexists _, _.
Qed.

(** C8, as the code has it.  Without an index, [update] logs an error and
    returns before the index refresh, any request and any change to the
    directory: the command has an outcome, and in every outcome the files
    and the trace of effects are what they were and the log has one more
    line.  [main] then ends normally, so the exit status is 0. *)
Theorem missing_index_stops_update (dir : string) (parallel : Z) (w : state) :
  index w = None →
  (∃ out, main E (CmdUpdate dir parallel) w out)
  ∧ ∀ out, main E (CmdUpdate dir parallel) w out →
      out.1 = 0%Z
      ∧ files out.2 = files w
      ∧ trace out.2 = trace w
      ∧ index out.2 = index w
      ∧ log out.2 = log w ++ [(ERROR, "invalid local registry: no index")].
Proof.
  intros Hi. split.
  - eexists. by apply main_update_no_index.
  - intros out Hout. apply main_update_no_index in Hout; [|done]. by subst.
Qed.

End NoIndex.

Lemma missing_index_stops_update_witness :
  (∃ out, main serve_abc (CmdUpdate "/m" 0) (set_index None Mini.empty) out)
  ∧ ∀ out, main serve_abc (CmdUpdate "/m" 0) (set_index None Mini.empty) out →
      out.1 = 0%Z
      ∧ files out.2 = files (set_index None Mini.empty)
      ∧ trace out.2 = trace (set_index None Mini.empty)
      ∧ index out.2 = index (set_index None Mini.empty)
      ∧ log out.2 = log (set_index None Mini.empty)
                      ++ [(ERROR, "invalid local registry: no index")].
Proof. apply (missing_index_stops_update serve_abc "/m" 0). reflexivity. Defined.

(** C8, as stated, fails on its exit status: with no index the command
    has one outcome, and its status is 0. *)
Lemma missing_index_exits_with_zero :
  index (set_index None Mini.empty) = None
  ∧ (∃ out, main serve_abc (CmdUpdate "/m" 0) (set_index None Mini.empty) out)
  ∧ ∀ out, main serve_abc (CmdUpdate "/m" 0) (set_index None Mini.empty) out → out.1 = 0%Z.
Proof.
  split; [done|]. split.
  - eexists. by apply main_update_no_index.
  - intros out Hout. apply main_update_no_index in Hout; [|done]. by subst.
Qed.

(** ** The reconciler *)

Lemma lookup_remove_all (names : list string) (m : gmap string bytes) (k : string) :
  remove_all names m !! k = if bool_decide (k ∈ names) then None else m !! k.
Proof.
  revert m. induction names as [|n names IH]; intros m; cbn [remove_all foldl].
  - by rewrite bool_decide_eq_false_2 by set_solver.
  - fold (remove_all names (delete n m)). rewrite IH.
    destruct (decide (k ∈ names)) as [Hin|Hin].
    + by rewrite !bool_decide_eq_true_2 by set_solver.
    + rewrite (bool_decide_eq_false_2 (k ∈ names)) by done.
      destruct (decide (n = k)) as [->|Hne].
      * rewrite lookup_delete_eq. by rewrite bool_decide_eq_true_2 by set_solver.
      * rewrite lookup_delete_ne by done. rewrite bool_decide_eq_false_2; [done|].
        rewrite elem_of_cons. intros [?|?]; [congruence|done].
Qed.

Lemma elem_of_glob_names (suffix : string) (m : gmap string bytes) (n : string) :
  n ∈ glob_names suffix m ↔ is_Some (m !! n) ∧ ends_with suffix n = true.
Proof.
  unfold glob_names. rewrite list_elem_of_filter, list_elem_of_fmap. split.
  - intros [Hs ([k v] & -> & Hkv)]. apply elem_of_map_to_list in Hkv.
    split; [by exists v|done].
  - intros [[v Hv] Hs]. split; [done|]. exists (n, v). split; [done|].
    by apply elem_of_map_to_list.
Qed.

Lemma NoDup_glob_names (suffix : string) (m : gmap string bytes) :
  NoDup (glob_names suffix m).
Proof. apply NoDup_filter, NoDup_fst_map_to_list. Qed.

Lemma glob_run (suffix : string) (w : state) :
  glob suffix w = (Return (glob_names suffix (files w)), w).
Proof. reflexivity. Qed.

(** A loop that unlinks the names it does not keep. *)
Lemma for_each_unlink (keep : string → bool) (msg : string → string)
    (body : string → M unit) (names : list string) (w : state) :
  (∀ p, body p = if keep p then mret tt else (LOGGER INFO (msg p);; unlink p)) →
  NoDup names →
  (∀ p, p ∈ names → is_Some (files w !! p)) →
  for_each names body w =
    (Return tt,
     {| files := remove_all (filter (λ p, keep p = false) names) (files w);
        index := index w;
        log := log w ++ ((λ p, (INFO, msg p)) <$> filter (λ p, keep p = false) names);
        trace := trace w ++ (EvUnlink <$> filter (λ p, keep p = false) names) |}).
Proof.
  intros Hbody. revert w.
  induction names as [|n names IH]; intros w Hnd Hin; cbn [for_each].
  - rewrite filter_nil. cbn [remove_all foldl fmap list_fmap].
    rewrite !app_nil_r. unfold mret, M_ret. by rewrite <- state_eta.
  - apply NoDup_cons in Hnd as [Hn Hnd].
    unfold mbind, M_bind. rewrite Hbody.
    destruct (keep n) eqn:Hk.
    + unfold mret, M_ret. rewrite IH by (done || set_solver).
      by rewrite filter_cons_False by congruence.
    + destruct (Hin n) as [data Hdata]; [set_solver|].
      unfold mbind, M_bind, LOGGER, unlink. cbn [files add_log]. rewrite Hdata.
      rewrite IH.
      * rewrite filter_cons_True by done. state_simpl. done.
      * done.
      * intros p Hp. cbn [files add_trace set_files add_log].
        rewrite lookup_delete_ne by set_solver. apply Hin. set_solver.
Qed.

Lemma lookup_remove_glob (suffix : string) (m : gmap string bytes) (k : string) :
  remove_all (glob_names suffix m) m !! k = if ends_with suffix k then None else m !! k.
Proof.
  rewrite lookup_remove_all. destruct (ends_with suffix k) eqn:Hs.
  - destruct (m !! k) as [v|] eqn:Hk.
    + rewrite bool_decide_eq_true_2; [done|]. apply elem_of_glob_names.
      split; [by exists v|done].
    + by destruct (bool_decide _).
  - rewrite bool_decide_eq_false_2; [done|].
    intros [_ ?]%elem_of_glob_names. congruence.
Qed.

Lemma lookup_remove_stale (crates : list string) (m : gmap string bytes) (k : string) :
  remove_all (stale crates m) m !! k
  = if is_committed k && negb (bool_decide (k ∈ crates)) then None else m !! k.
Proof.
  rewrite lookup_remove_all. unfold stale, is_committed.
  destruct (ends_with ".crate" k) eqn:Hs, (bool_decide (k ∈ crates)) eqn:Hc; cbn [andb negb].
  - rewrite bool_decide_eq_false_2; [done|].
    intros [? _]%list_elem_of_filter. congruence.
  - destruct (m !! k) as [v|] eqn:Hk.
    + rewrite bool_decide_eq_true_2; [done|]. apply list_elem_of_filter.
      split; [exact Hc|]. apply elem_of_glob_names. split; [by eexists|exact Hs].
    + by destruct (bool_decide (k ∈ filter _ _)).
  - rewrite bool_decide_eq_false_2; [done|].
    intros [_ [_ ?]%elem_of_glob_names]%list_elem_of_filter. congruence.
  - rewrite bool_decide_eq_false_2; [done|].
    intros [_ [_ ?]%elem_of_glob_names]%list_elem_of_filter. congruence.
Qed.

(** The directory after [cleanup], file by file. *)
Lemma lookup_swept (crates : list string) (m : gmap string bytes) (k : string) :
  swept crates m !! k
  = if is_partial k || is_quarantined k
       || (is_committed k && negb (bool_decide (k ∈ crates)))
    then None else m !! k.
Proof.
  unfold swept. cbv zeta. rewrite !lookup_remove_glob, lookup_remove_stale.
  unfold is_partial, is_quarantined.
  by destruct (ends_with ".crate~corrupted" k), (ends_with ".crate~" k),
    (is_committed k && negb (bool_decide (k ∈ crates))).
Qed.

Section Reconciler.
Context (E : Env).

Lemma filter_keep_none (names : list string) :
  filter (λ p : string, false = false) names = names.
Proof. induction names as [|n names IH]; [done|]. by rewrite filter_cons_True, IH. Qed.

Lemma cleanup_sweep_run (directory : string) (ks : list CrateVersion) (w : state) :
  ∃ w', cleanup_sweep E directory ks w = (Return tt, w')
        ∧ files w' = swept (crate_file E <$> ks) (files w)
        ∧ index w' = index w
        ∧ trace w' = trace w ++ (EvUnlink <$> unlinked (crate_file E <$> ks) (files w)).
Proof.
  unfold cleanup_sweep, mbind, M_bind. rewrite glob_run.
  erewrite (for_each_unlink (λ p, bool_decide (p ∈ List.map (crate_file E) ks))
              (λ p, "remove " +:+ path_join directory p));
    [|done|apply NoDup_glob_names|by intros p [? _]%elem_of_glob_names].
  rewrite glob_run. cbn [files].
  erewrite (for_each_unlink (λ _, false)
              (λ p, "remove partial download " +:+ path_join directory p));
    [|done|apply NoDup_glob_names|by intros p [? _]%elem_of_glob_names].
  rewrite glob_run. cbn [files].
  erewrite (for_each_unlink (λ _, false)
              (λ p, "remove corrupted download " +:+ path_join directory p));
    [|done|apply NoDup_glob_names|by intros p [? _]%elem_of_glob_names].
  eexists. split; [done|]. cbn [files index trace].
  rewrite !filter_keep_none. unfold swept, unlinked, stale.
  by rewrite !fmap_app, <- !app_assoc.
Qed.

Lemma cleanup_run (directory : string) (w : state) :
  cleanup E directory w =
    match index w with
    | None => (Raise (FileNotFoundError (path_join directory "index")), w)
    | Some entries =>
        let g := get_crates E (path_join directory "index") entries in
        match raised g with
        | Some e => (Raise e, add_log (logged g) w)
        | None => cleanup_sweep E directory (yielded g) (add_log (logged g) w)
        end
    end.
Proof.
  unfold cleanup, mbind, M_bind, iterdir_index, consume.
  destruct (index w) as [entries|]; [|done]. cbv zeta.
  by destruct (raised (get_crates E (path_join directory "index") entries)).
Qed.

(** Whether a pass completes is decided by the index alone. *)
Lemma cleanup_result (directory : string) (w : state) :
  (cleanup E directory w).1 =
    match index w with
    | None => Raise (FileNotFoundError (path_join directory "index"))
    | Some entries =>
        match raised (get_crates E (path_join directory "index") entries) with
        | Some e => Raise e
        | None => Return tt
        end
    end.
Proof.
  rewrite cleanup_run. destruct (index w) as [entries|]; [|done]. cbv zeta.
  destruct (raised (get_crates E (path_join directory "index") entries)); [done|].
  by destruct (cleanup_sweep_run directory
                 (yielded (get_crates E (path_join directory "index") entries))
                 (add_log (logged (get_crates E (path_join directory "index") entries)) w))
    as (w' & -> & _).
Qed.

(** A pass that completes leaves the swept directory. *)
Lemma cleanup_completes (directory : string) (w : state) :
  (cleanup E directory w).1 = Return tt →
  files (cleanup E directory w).2 = swept (expected_names E directory w) (files w)
  ∧ index (cleanup E directory w).2 = index w
  ∧ trace (cleanup E directory w).2
    = trace w ++ (EvUnlink <$> unlinked (expected_names E directory w) (files w)).
Proof.
  rewrite cleanup_run. unfold expected_names.
  destruct (index w) as [entries|] eqn:Hi; [|done]. cbv zeta.
  destruct (raised (get_crates E (path_join directory "index") entries)); [done|].
  intros _.
  destruct (cleanup_sweep_run directory
              (yielded (get_crates E (path_join directory "index") entries))
              (add_log (logged (get_crates E (path_join directory "index") entries)) w))
    as (w' & -> & Hf & Hx & Ht).
  cbn [snd]. by rewrite Hf, Hx, Ht.
Qed.

(** A pass that does not complete has removed nothing. *)
Lemma cleanup_fails (directory : string) (w : state) (e : exn) :
  (cleanup E directory w).1 = Raise e →
  files (cleanup E directory w).2 = files w
  ∧ index (cleanup E directory w).2 = index w
  ∧ trace (cleanup E directory w).2 = trace w.
Proof.
  rewrite cleanup_run. destruct (index w) as [entries|] eqn:Hi; [|done]. cbv zeta.
  destruct (raised (get_crates E (path_join directory "index") entries)); [done|].
  destruct (cleanup_sweep_run directory
              (yielded (get_crates E (path_join directory "index") entries))
              (add_log (logged (get_crates E (path_join directory "index") entries)) w))
    as (w' & -> & _). done.
Qed.

Lemma expected_names_committed (directory : string) (w : state) (path : string) :
  path ∈ expected_names E directory w →
  is_committed path = true ∧ is_partial path = false ∧ is_quarantined path = false.
Proof.
  unfold expected_names. destruct (index w) as [entries|]; [|by intros ?%elem_of_nil].
  intros (crate & -> & _)%list_elem_of_fmap. repeat split.
  - rewrite crate_file_base. apply ends_with_app.
  - eapply (ends_with_last _ _ "~" "e" ".crate"); [done|apply crate_file_last|done].
  - eapply (ends_with_last _ _ "d" "e" ".crate~corrupte"); [done|apply crate_file_last|done].
Qed.

(** C7. After a reconcile pass that ran to its end: no file with the
    partial-download name or the quarantine name is left, whatever the
    index holds; no committed-named file is left whose name is not the
    canonical name of a record of the index; every other file, and so
    every file named after a record of the index, is there as before. *)
Theorem cleanup_removes_the_unexpected (directory : string) (w : state) :
  (cleanup E directory w).1 = Return tt →
  let w' := (cleanup E directory w).2 in
  ∀ path,
  (is_partial path = true → files w' !! path = None)
  ∧ (is_quarantined path = true → files w' !! path = None)
  ∧ (is_committed path = true → path ∉ expected_names E directory w →
     files w' !! path = None)
  ∧ (is_partial path = false → is_quarantined path = false →
     is_committed path = false ∨ path ∈ expected_names E directory w →
     files w' !! path = files w !! path)
  ∧ (path ∈ expected_names E directory w → files w' !! path = files w !! path).
Proof.
  intros Hdone. cbv zeta. intros path.
  destruct (cleanup_completes directory w Hdone) as (-> & _ & _).
  rewrite lookup_swept. repeat split.
  - by intros ->.
  - intros ->. by rewrite orb_true_r.
  - intros -> ?. rewrite bool_decide_eq_false_2 by done. by rewrite !orb_true_r.
  - intros -> -> [->|?]; [done|]. rewrite bool_decide_eq_true_2 by done.
    by rewrite andb_false_r.
  - intros Hin. destruct (expected_names_committed directory w path Hin) as (-> & -> & ->).
    by rewrite bool_decide_eq_true_2.
Qed.

Lemma swept_swept (crates : list string) (m : gmap string bytes) :
  swept crates (swept crates m) = swept crates m.
Proof.
  apply map_eq. intros k. rewrite !lookup_swept.
  by destruct (is_partial k || is_quarantined k || _).
Qed.

Lemma unlinked_swept (crates : list string) (m : gmap string bytes) :
  unlinked crates (swept crates m) = [].
Proof.
  assert (Hstale : stale crates (swept crates m) = []).
  { apply elem_of_nil_inv. intros p [Hc [[v Hv] Hs]%elem_of_glob_names]%list_elem_of_filter.
    rewrite lookup_swept in Hv. fold (is_committed p) in Hs. rewrite Hs, Hc in Hv.
    by rewrite orb_true_r in Hv. }
  unfold unlinked. cbv zeta. rewrite Hstale. cbn [remove_all foldl app].
  assert (Hpartial : glob_names ".crate~" (swept crates m) = []).
  { apply elem_of_nil_inv. intros p [[v Hv] Hs]%elem_of_glob_names.
    rewrite lookup_swept in Hv. fold (is_partial p) in Hs. by rewrite Hs in Hv. }
  rewrite Hpartial. cbn [remove_all foldl app].
  apply elem_of_nil_inv. intros p [[v Hv] Hs]%elem_of_glob_names.
  rewrite lookup_swept in Hv. fold (is_quarantined p) in Hs. rewrite Hs in Hv.
  by rewrite orb_true_r in Hv.
Qed.

(** C6. Reconciliation is idempotent: a second [cleanup] right after a
    first one unlinks nothing, so the files and the trace of effects stay
    what the first pass left, whether the first pass completed or not. *)
Theorem cleanup_is_idempotent (directory : string) (w : state) :
  let w1 := (cleanup E directory w).2 in
  let w2 := (cleanup E directory w1).2 in
  files w2 = files w1 ∧ trace w2 = trace w1 ∧ index w2 = index w1.
Proof.
  cbv zeta. destruct (cleanup E directory (cleanup E directory w).2).1 as [[]|e] eqn:H2.
  - destruct (cleanup_completes _ _ H2) as (-> & -> & ->).
    destruct (cleanup E directory w).1 as [[]|e] eqn:H1.
    + destruct (cleanup_completes _ _ H1) as (Hf & Hi & _).
      assert (expected_names E directory (cleanup E directory w).2
              = expected_names E directory w) as -> by (unfold expected_names; by rewrite Hi).
      rewrite Hf, swept_swept, unlinked_swept. by rewrite app_nil_r.
    + exfalso. destruct (cleanup_fails _ _ _ H1) as (_ & Hi & _).
      rewrite cleanup_result in H1, H2. rewrite Hi in H2. congruence.
  - by destruct (cleanup_fails _ _ _ H2) as (-> & -> & ->).
Qed.

End Reconciler.

Lemma cleanup_removes_the_unexpected_witness :
  (is_partial "foo-1.0.0.crate~" = true →
   files (cleanup serve_abc "/m" attic).2 !! "foo-1.0.0.crate~" = None)
  ∧ (is_quarantined "foo-1.0.0.crate~" = true →
     files (cleanup serve_abc "/m" attic).2 !! "foo-1.0.0.crate~" = None)
  ∧ (is_committed "foo-1.0.0.crate~" = true →
     "foo-1.0.0.crate~" ∉ expected_names serve_abc "/m" attic →
     files (cleanup serve_abc "/m" attic).2 !! "foo-1.0.0.crate~" = None)
  ∧ (is_partial "foo-1.0.0.crate~" = false → is_quarantined "foo-1.0.0.crate~" = false →
     is_committed "foo-1.0.0.crate~" = false
     ∨ "foo-1.0.0.crate~" ∈ expected_names serve_abc "/m" attic →
     files (cleanup serve_abc "/m" attic).2 !! "foo-1.0.0.crate~"
     = files attic !! "foo-1.0.0.crate~")
  ∧ ("foo-1.0.0.crate~" ∈ expected_names serve_abc "/m" attic →
     files (cleanup serve_abc "/m" attic).2 !! "foo-1.0.0.crate~"
     = files attic !! "foo-1.0.0.crate~").
Proof.
  apply (cleanup_removes_the_unexpected serve_abc "/m" attic). by_compute.
Defined.

Example cleanup_attic :
  files (cleanup serve_abc "/m" attic).2
  = list_to_map [("foo-1.0.0.crate", abc); ("README", [])].
Proof. by_compute. Qed.

(** ** The yanked flag *)

Section Yanked.
Context (E : Env).

Lemma same_but_yanked_sym (c c' : CrateVersion) :
  same_but_yanked c c' → same_but_yanked c' c.
Proof. by intros (? & ? & ?). Qed.

Lemma download_crate_yanked (cache : string) (c c' : CrateVersion) :
  same_but_yanked c c' → download_crate E cache c = download_crate E cache c'.
Proof.
  destruct c, c'. unfold same_but_yanked. cbn [name vers cksum].
  by intros (-> & -> & ->).
Qed.

Lemma crate_file_yanked (c c' : CrateVersion) :
  same_but_yanked c c' → crate_file E c = crate_file E c'.
Proof. unfold crate_file. by intros (-> & -> & _). Qed.

Lemma dl_yanked (cache : string) (c c' : CrateVersion) :
  same_but_yanked c c' → dl E (cache, c) = dl E (cache, c').
Proof. intros H. unfold dl. cbn [fst snd]. by rewrite (download_crate_yanked _ c c'). Qed.

(** Two lines whose objects agree on every key but yanked, and both have
    that key, decode alike. *)
Lemma fromjson_yanked (line line' : string) (items items' : list (string * json)) :
  json_loads E line = Some (JObject items) →
  json_loads E line' = Some (JObject items') →
  (∀ key, key ≠ "yanked" → dict_get key items = dict_get key items') →
  is_Some (dict_get "yanked" items) → is_Some (dict_get "yanked" items') →
  match fromjson E line, fromjson E line' with
  | Return c, Return c' => same_but_yanked c c'
  | Raise e, Raise e' => e = e'
  | _, _ => False
  end.
Proof.
  intros Hl Hl' Hsame [y Hy] [y' Hy']. unfold fromjson, getitem.
  rewrite Hl, Hl', Hy, Hy', <- !Hsame by done.
  destruct (dict_get "name" items); [|done].
  destruct (dict_get "vers" items); [|done].
  destruct (dict_get "cksum" items) as [[]|]; try done.
  by destruct (fromhex _).
Qed.

Lemma update_sequential_yanked (directory : string) (crates crates' : list CrateVersion) :
  Forall2 same_but_yanked crates crates' →
  update_sequential E directory crates = update_sequential E directory crates'.
Proof.
  induction 1 as [|c c' crates crates' Hc _ IH]; [done|].
  cbn [update_sequential]. by rewrite (download_crate_yanked _ c c'), IH.
Qed.

Lemma pool_step_alike (jobs : nat) (directory : string) (p q p' : pool) :
  pool_step E jobs directory p q → pool_alike p p' →
  ∃ q', pool_step E jobs directory p' q' ∧ pool_alike q q'.
Proof.
  intros Hstep. destruct p' as [qu' run' w'].
  destruct Hstep as [crate rest run w Hjobs|crate rest run1 run2 w];
    intros (Hq & Hr & Hw); cbn [queued running world] in *; subst w'.
  - apply Forall2_cons_inv_l in Hq as (crate' & rest' & Hc & Hrest & ->).
    eexists. split.
    + apply pool_dispatch. by rewrite <- (Forall2_length _ _ _ Hr).
    + split; [done|]. split; [|done]. cbn [queued running world].
      apply Forall2_app; [done|]. by constructor.
  - apply Forall2_app_inv_l in Hr as (run1' & tail & Hr1 & Htail & ->).
    apply Forall2_cons_inv_l in Htail as (crate' & run2' & Hc & Hr2 & ->).
    eexists. split.
    + apply pool_complete.
    + split; [done|]. split; cbn [queued running world].
      * by apply Forall2_app.
      * by rewrite (dl_yanked _ crate crate').
Qed.

Lemma pool_run_alike (jobs : nat) (directory : string) (p q p' : pool) :
  rtc (pool_step E jobs directory) p q → pool_alike p p' →
  ∃ q', rtc (pool_step E jobs directory) p' q' ∧ pool_alike q q'.
Proof.
  intros Hrun. revert p'. induction Hrun as [p|p r q Hstep _ IH]; intros p' Hp.
  - by exists p'.
  - destruct (pool_step_alike _ _ _ _ _ Hstep Hp) as (r' & Hstep' & Hr).
    destruct (IH r' Hr) as (q' & Hrun' & Hq).
    exists q'. split; [by eapply rtc_l|done].
Qed.

Lemma imap_unordered_yanked (jobs : nat) (directory : string)
    (crates crates' : list CrateVersion) (w w' : state) :
  Forall2 same_but_yanked crates crates' →
  imap_unordered E jobs directory crates w w' →
  imap_unordered E jobs directory crates' w w'.
Proof.
  intros Hc Hrun.
  destruct (pool_run_alike _ _ _ _ {| queued := crates'; running := []; world := w |} Hrun)
    as ([qu run w2] & Hrun' & Hq & Hr & Hw).
  { by repeat split. }
  cbn [queued running world] in *.
  apply Forall2_nil_inv_l in Hq as ->. apply Forall2_nil_inv_l in Hr as ->. by subst w2.
Qed.

(** C9. Flipping yanked flags changes nothing: record by record
    [download_crate] is the same function of the state, so the
    sequential loop and the pool have the same outcomes; the canonical
    names that [cleanup] expects are the same, and so is what it removes. *)
Theorem yanked_flag_is_ignored (directory : string) (crates crates' : list CrateVersion) :
  Forall2 same_but_yanked crates crates' →
  Forall2 (λ c c', ∀ w, download_crate E directory c w = download_crate E directory c' w)
    crates crates'
  ∧ (∀ w, update_sequential E directory crates w = update_sequential E directory crates' w)
  ∧ (∀ jobs w w', imap_unordered E jobs directory crates w w'
                  ↔ imap_unordered E jobs directory crates' w w')
  ∧ crate_file E <$> crates = crate_file E <$> crates'
  ∧ (∀ w, cleanup_sweep E directory crates w = cleanup_sweep E directory crates' w).
Proof.
  intros Hc.
  assert (Hnames : crate_file E <$> crates = crate_file E <$> crates').
  { induction Hc as [|c c' crates crates' Hcc _ IH]; [done|].
    cbn [fmap list_fmap]. f_equal; [by apply crate_file_yanked|done]. }
  repeat split.
  - eapply Forall2_impl; [done|]. intros c c' Hcc w. by rewrite (download_crate_yanked _ c c').
  - intros w. by rewrite (update_sequential_yanked _ crates crates').
  - by apply imap_unordered_yanked.
  - apply imap_unordered_yanked. eapply Forall2_flip, Forall2_impl; [done|].
    apply same_but_yanked_sym.
  - done.
  - intros w. unfold cleanup_sweep.
    assert (List.map (crate_file E) crates = List.map (crate_file E) crates') as ->
      by exact Hnames.
    done.
Qed.

End Yanked.

Lemma yanked_flag_is_ignored_witness :
  Forall2 (λ c c', ∀ w, download_crate serve_abc "/m" c w = download_crate serve_abc "/m" c' w)
    [foo; bar] [yanked_foo; bar]
  ∧ (∀ w, update_sequential serve_abc "/m" [foo; bar] w
          = update_sequential serve_abc "/m" [yanked_foo; bar] w)
  ∧ (∀ jobs w w', imap_unordered serve_abc jobs "/m" [foo; bar] w w'
                  ↔ imap_unordered serve_abc jobs "/m" [yanked_foo; bar] w w')
  ∧ crate_file serve_abc <$> [foo; bar] = crate_file serve_abc <$> [yanked_foo; bar]
  ∧ (∀ w, cleanup_sweep serve_abc "/m" [foo; bar] w
          = cleanup_sweep serve_abc "/m" [yanked_foo; bar] w).
Proof.
  apply (yanked_flag_is_ignored serve_abc "/m" [foo; bar] [yanked_foo; bar]).
  repeat constructor.
Defined.

(** ** The index reader *)

Lemma entry_induction (P : entry → Prop) :
  (∀ n lines, P (File n lines)) →
  (∀ n children, Forall P children → P (Dir n children)) →
  ∀ a, P a.
Proof.
  intros Hfile Hdir. fix IH 1. intros [n lines|n children].
  - apply Hfile.
  - apply Hdir. induction children as [|c children IHc]; constructor; [apply IH|apply IHc].
Qed.

Lemma insert_sorted_perm {A} (key : A → string) (x : A) (l : list A) :
  insert_sorted key x l ≡ₚ x :: l.
Proof.
  induction l as [|y l IH]; cbn [insert_sorted]; [done|].
  destruct (String.leb (key x) (key y)); [done|].
  rewrite IH. apply Permutation_swap.
Qed.

Lemma sorted_perm {A} (key : A → string) (l : list A) : sorted key l ≡ₚ l.
Proof.
  induction l as [|x l IH]; [done|]. unfold sorted. cbn [fold_right].
  fold (sorted key l). by rewrite insert_sorted_perm, IH.
Qed.

Lemma insert_sorted_map {A B} (f : A → B) (kA : A → string) (kB : B → string)
    (x : A) (l : list A) :
  (∀ a, kB (f a) = kA a) →
  insert_sorted kB (f x) (List.map f l) = List.map f (insert_sorted kA x l).
Proof.
  intros Hk. induction l as [|y l IH]; cbn [insert_sorted List.map]; [done|].
  rewrite !Hk. destruct (String.leb (kA x) (kA y)); [done|].
  cbn [List.map]. by rewrite IH.
Qed.

Lemma sorted_map {A B} (f : A → B) (kA : A → string) (kB : B → string) (l : list A) :
  (∀ a, kB (f a) = kA a) →
  sorted kB (List.map f l) = List.map f (sorted kA l).
Proof.
  intros Hk. induction l as [|x l IH]; [done|]. unfold sorted. cbn [fold_right List.map].
  fold (sorted kA l) (sorted kB (List.map f l)). rewrite IH. by apply insert_sorted_map.
Qed.

Section ReaderProperties.
Context (E : Env).

(** The loop of [get_crates] on a directory is [get_crates] on it. *)
Lemma get_crates_entry_dir (indexdir n : string) (children : list entry) :
  visible n →
  get_crates_entry E indexdir (Dir n children) = get_crates E (path_join indexdir n) children.
Proof.
  unfold visible. intros Hv. cbn [get_crates_entry entry_name]. rewrite Hv.
  unfold get_crates.
  rewrite (sorted_map (λ c, (entry_name c, get_crates_entry E (path_join indexdir n) c))
             entry_name fst) by done.
  by rewrite List.map_map.
Qed.

Lemma get_crates_entry_file (indexdir n : string) (lines : list string) :
  visible n →
  get_crates_entry E indexdir (File n lines)
  = get_crate_versions E (path_join indexdir n) lines.
Proof. unfold visible. intros Hv. cbn [get_crates_entry entry_name]. by rewrite Hv. Qed.

Lemma get_crates_entry_skipped (indexdir : string) (a : entry) :
  ¬ visible (entry_name a) → get_crates_entry E indexdir a = gen_done.
Proof.
  unfold visible. intros Hv. destruct a; cbn [get_crates_entry entry_name] in *;
    by destruct (is_hidden _ || _).
Qed.

Lemma reads_ext (g : gen CrateVersion) (P Q : string → list string → Prop) :
  (∀ p lines, P p lines ↔ Q p lines) → reads E g P → reads E g Q.
Proof.
  intros HPQ (Hr & Hy & Hl). split; [done|]. split.
  - intros c. rewrite Hy. by setoid_rewrite HPQ.
  - intros l. rewrite Hl. by setoid_rewrite HPQ.
Qed.

Lemma reads_done : reads E gen_done (λ _ _, False).
Proof.
  split; [done|]. split.
  - intros c. cbn [yielded gen_done]. rewrite elem_of_nil. naive_solver.
  - intros l. cbn [logged gen_done]. rewrite elem_of_nil. naive_solver.
Qed.

Lemma reads_seq (g1 g2 : gen CrateVersion) (P1 P2 : string → list string → Prop) :
  reads E g1 P1 → reads E g2 P2 → reads E (gen_seq g1 g2) (λ p lines, P1 p lines ∨ P2 p lines).
Proof.
  intros (Hr1 & Hy1 & Hl1) (Hr2 & Hy2 & Hl2). unfold gen_seq. rewrite Hr1.
  split; [done|]. split.
  - intros c. cbn [yielded]. rewrite elem_of_app, Hy1, Hy2. naive_solver.
  - intros l. cbn [logged]. rewrite elem_of_app, Hl1, Hl2. naive_solver.
Qed.

Lemma reads_concat {A} (f : A → gen CrateVersion) (P : A → string → list string → Prop)
    (l : list A) :
  (∀ x, x ∈ l → reads E (f x) (P x)) →
  reads E (gen_concat (List.map f l)) (λ p lines, ∃ x, x ∈ l ∧ P x p lines).
Proof.
  induction l as [|x l IH]; intros Hall; cbn [gen_concat List.map fold_right].
  - eapply reads_ext; [|apply reads_done]. intros p lines. split; [done|].
    by intros (x & ?%elem_of_nil & _).
  - eapply reads_ext; [|apply reads_seq; [apply (Hall x); left|apply IH]].
    + intros p lines. split.
      * intros [?|(y & ? & ?)]; [exists x|exists y]; split; by (left || right || done).
      * intros (y & [->|?]%elem_of_cons & ?); [by left|right; by exists y].
    + intros y Hy. apply Hall. by right.
Qed.

(** One pack file: the lines before the first one that does not decode. *)
Lemma reads_pack (packfile : string) (lines : list string) :
  (∀ line e, line ∈ lines → fromjson E line = Raise e → e = JSONDecodeError) →
  reads E (get_crate_versions E packfile lines) (λ p ls, p = packfile ∧ ls = lines).
Proof.
  intros Hjson.
  enough (raised (get_crate_versions E packfile lines) = None
          ∧ yielded (get_crate_versions E packfile lines) = decoded_prefix E lines
          ∧ ∀ l, l ∈ logged (get_crate_versions E packfile lines) ↔
                 l = parse_error packfile
                 ∧ ∃ line, line ∈ lines ∧ fromjson E line = Raise JSONDecodeError)
    as (Hr & Hy & Hl).
  { split; [done|]. split.
    - intros c. rewrite Hy. naive_solver.
    - intros l. rewrite Hl. naive_solver. }
  induction lines as [|line lines IH]; cbn [get_crate_versions decoded_prefix].
  - split; [done|]. split; [done|]. intros l. cbn [logged gen_done].
    rewrite elem_of_nil. split; [done|]. by intros (_ & line & ?%elem_of_nil & _).
  - destruct (fromjson E line) as [c|e] eqn:Hline.
    + destruct IH as (Hr & Hy & Hl).
      { intros l e Hin. apply Hjson. by right. }
      cbn [raised yielded logged gen_yield]. split; [done|]. split; [by rewrite Hy|].
      intros l. rewrite Hl. split.
      * intros (-> & l' & Hin & Hf). split; [done|]. exists l'. split; [by right|done].
      * intros (-> & l' & [->|Hin]%elem_of_cons & Hf); [congruence|]. eauto.
    + rewrite (Hjson line e) in * by (by left || done).
      split; [done|]. split; [done|]. intros l. cbn [logged gen_log].
      rewrite list_elem_of_singleton. split.
      * intros ->. split; [done|]. exists line. split; [by left|done].
      * by intros (-> & _).
Qed.

Lemma pack_in_split (indexdir : string) (entries : list entry) (p : string)
    (lines : list string) :
  pack_in indexdir entries p lines ↔ ∃ a, a ∈ entries ∧ pack_in indexdir [a] p lines.
Proof.
  split.
  - intros [dir ents n ls Hin Hv|dir ents n children pf ls Hin Hv Hsub].
    + exists (File n ls). split; [done|]. apply pack_here; [by left|done].
    + exists (Dir n children). split; [done|]. eapply pack_below; [by left|done..].
  - intros (a & Ha & Hp). inversion Hp as [dir ents n ls Hin Hv|dir ents n children pf ls Hin Hv Hsub];
      subst; apply list_elem_of_singleton in Hin; subst a.
    + by apply pack_here.
    + by eapply pack_below.
Qed.

Lemma pack_in_file (indexdir n : string) (ls : list string) (p : string) (lines : list string) :
  pack_in indexdir [File n ls] p lines ↔ visible n ∧ p = path_join indexdir n ∧ lines = ls.
Proof.
  split.
  - intros Hp. inversion Hp as [dir ents m l Hin Hv|dir ents m children pf l Hin Hv Hsub];
      subst; apply list_elem_of_singleton in Hin; [|done].
    by injection Hin as -> ->.
  - intros (Hv & -> & ->). apply pack_here; [by left|done].
Qed.

Lemma pack_in_dir (indexdir n : string) (children : list entry) (p : string)
    (lines : list string) :
  pack_in indexdir [Dir n children] p lines
  ↔ visible n ∧ pack_in (path_join indexdir n) children p lines.
Proof.
  split.
  - intros Hp. inversion Hp as [dir ents m l Hin Hv|dir ents m ch pf l Hin Hv Hsub];
      subst; apply list_elem_of_singleton in Hin; [done|].
    by injection Hin as -> ->.
  - intros (Hv & Hsub). eapply pack_below; [by left|done..].
Qed.

Lemma reads_list (indexdir : string) (entries : list entry) :
  (∀ a, a ∈ entries → reads E (get_crates_entry E indexdir a) (pack_in indexdir [a])) →
  reads E (get_crates E indexdir entries) (pack_in indexdir entries).
Proof.
  intros Hall. unfold get_crates.
  eapply reads_ext; [|apply (reads_concat _ (λ a, pack_in indexdir [a]))].
  - intros p lines. rewrite pack_in_split. by setoid_rewrite (sorted_perm entry_name entries).
  - intros a Ha. apply Hall. by rewrite <- (sorted_perm entry_name entries).
Qed.

Lemma reads_entry (a : entry) :
  ∀ indexdir,
    (∀ p lines, pack_in indexdir [a] p lines → json_or_record E lines) →
    reads E (get_crates_entry E indexdir a) (pack_in indexdir [a]).
Proof.
  induction a as [n ls|n children IH] using entry_induction; intros indexdir Hjson.
  - destruct (decide (visible n)) as [Hv|Hv].
    + rewrite get_crates_entry_file by done.
      eapply reads_ext; [|apply reads_pack].
      * intros p lines. rewrite pack_in_file. naive_solver.
      * intros line e. apply (Hjson (path_join indexdir n)). by apply pack_in_file.
    + rewrite get_crates_entry_skipped by done.
      eapply reads_ext; [|apply reads_done].
      intros p lines. rewrite pack_in_file. naive_solver.
  - destruct (decide (visible n)) as [Hv|Hv].
    + rewrite get_crates_entry_dir by done.
      eapply reads_ext; [|apply reads_list].
      * intros p lines. rewrite pack_in_dir. naive_solver.
      * intros c Hc. rewrite Forall_forall in IH. apply IH; [done|].
        intros p lines Hp. apply (Hjson p). apply pack_in_dir. split; [done|].
        apply pack_in_split. eauto.
    + rewrite get_crates_entry_skipped by done.
      eapply reads_ext; [|apply reads_done].
      intros p lines. rewrite pack_in_dir. naive_solver.
Qed.

Lemma reads_get_crates (indexdir : string) (entries : list entry) :
  (∀ p lines, pack_in indexdir entries p lines → json_or_record E lines) →
  reads E (get_crates E indexdir entries) (pack_in indexdir entries).
Proof.
  intros Hjson. apply reads_list. intros a Ha. apply reads_entry.
  intros p lines Hp. apply (Hjson p). apply pack_in_split. eauto.
Qed.

Lemma elem_of_decoded_prefix (lines : list string) (c : CrateVersion) :
  c ∈ decoded_prefix E lines ↔
  ∃ i line, lines !! i = Some line ∧ fromjson E line = Return c
            ∧ ∀ j l, j < i → lines !! j = Some l → ∃ c', fromjson E l = Return c'.
Proof.
  induction lines as [|line lines IH]; cbn [decoded_prefix].
  - rewrite elem_of_nil. split; [done|]. by intros (i & l & ? & _).
  - destruct (fromjson E line) as [c0|e] eqn:Hline.
    + rewrite elem_of_cons, IH. split.
      * intros [->|(i & l & Hi & Hl & Hbefore)].
        -- exists 0, line. repeat split; [done|]. intros j l Hj. lia.
        -- exists (S i), l. repeat split; [done..|].
           intros [|j] l' Hj Hl'; [injection Hl' as <-; eauto|].
           apply (Hbefore j); [lia|done].
      * intros ([|i] & l & Hi & Hl & Hbefore).
        -- injection Hi as <-. left. congruence.
        -- right. exists i, l. repeat split; [done..|].
           intros j l' Hj Hl'. apply (Hbefore (S j)); [lia|done].
    + rewrite elem_of_nil. split; [done|].
      intros ([|i] & l & Hi & Hl & Hbefore).
      * injection Hi as <-. congruence.
      * destruct (Hbefore 0 line) as [c' Hc']; [lia|done|congruence].
Qed.

(** C1, as the code has it.  On an index whose lines each decode to a
    record or fail to decode as JSON, the read ends without an exception;
    it yields exactly the records of the lines that have no failing line
    before them in their own pack file, so a failing line drops the rest
    of its file and nothing of any other file; and it logs one error,
    naming the pack file, for each pack file with such a line. *)
Theorem bad_line_ends_its_file_only (indexdir : string) (entries : list entry) :
  (∀ packfile lines line e,
     pack_in indexdir entries packfile lines → line ∈ lines →
     fromjson E line = Raise e → e = JSONDecodeError) →
  let g := get_crates E indexdir entries in
  raised g = None
  ∧ (∀ c, c ∈ yielded g ↔
       ∃ packfile lines i line,
         pack_in indexdir entries packfile lines
         ∧ lines !! i = Some line ∧ fromjson E line = Return c
         ∧ ∀ j l, j < i → lines !! j = Some l → ∃ c', fromjson E l = Return c')
  ∧ (∀ l, l ∈ logged g ↔
       ∃ packfile lines line,
         pack_in indexdir entries packfile lines
         ∧ line ∈ lines ∧ fromjson E line = Raise JSONDecodeError
         ∧ l = (ERROR, "cannot parse " +:+ packfile +:+ " in index")).
Proof.
  intros Hjson. cbv zeta.
  destruct (reads_get_crates indexdir entries) as (Hr & Hy & Hl).
  { intros p lines Hp line e. by apply (Hjson p). }
  split; [done|]. split.
  - intros c. rewrite Hy. setoid_rewrite elem_of_decoded_prefix. naive_solver.
  - intros l. rewrite Hl. unfold parse_error. naive_solver.
Qed.

End ReaderProperties.

Lemma bad_line_ends_its_file_only_witness :
  let g := get_crates serve_abc "/m/index" torn_index in
  raised g = None
  ∧ (∀ c, c ∈ yielded g ↔
       ∃ packfile lines i line,
         pack_in "/m/index" torn_index packfile lines
         ∧ lines !! i = Some line ∧ fromjson serve_abc line = Return c
         ∧ ∀ j l, j < i → lines !! j = Some l → ∃ c', fromjson serve_abc l = Return c')
  ∧ (∀ l, l ∈ logged g ↔
       ∃ packfile lines line,
         pack_in "/m/index" torn_index packfile lines
         ∧ line ∈ lines ∧ fromjson serve_abc line = Raise JSONDecodeError
         ∧ l = (ERROR, "cannot parse " +:+ packfile +:+ " in index")).
Proof.
  apply (bad_line_ends_its_file_only serve_abc "/m/index" torn_index).
  intros packfile lines line e Hp Hline.
  assert (lines = [foo_line; "{"; bar_line]) as ->.
  { apply pack_in_split in Hp as (a & Ha & Hp).
    apply elem_of_cons in Ha as [->|Ha]; [by apply pack_in_file in Hp as ([=] & _)|].
    apply list_elem_of_singleton in Ha as ->. apply pack_in_dir in Hp as (_ & Hp).
    apply pack_in_dir in Hp as (_ & Hp). by apply pack_in_file in Hp as (_ & _ & ->). }
  repeat (apply elem_of_cons in Hline as [->|Hline]); [| |  |by apply elem_of_nil in Hline];
    vm_compute; congruence.
Defined.

(** C1, as stated, fails: the third line decodes to the record [bar], but
    the read stops at the second line and never yields it. *)
Lemma record_after_bad_line_is_dropped :
  fromjson serve_abc "{" = Raise JSONDecodeError
  ∧ fromjson serve_abc bar_line = Return bar
  ∧ get_crates serve_abc "/m/index" torn_index
    = {| yielded := [foo];
         logged := [(ERROR, "cannot parse /m/index/3/f/foo in index")];
         raised := None |}
  ∧ bar ∉ yielded (get_crates serve_abc "/m/index" torn_index).
Proof.
  split; [by vm_compute|]. split; [by vm_compute|].
  assert (get_crates serve_abc "/m/index" torn_index
          = {| yielded := [foo];
               logged := [(ERROR, "cannot parse /m/index/3/f/foo in index")];
               raised := None |}) as -> by (by vm_compute).
  split; [done|]. cbn [yielded]. by intros [=]%list_elem_of_singleton.
Qed.

(** A line that is JSON but lacks a field is not caught: its KeyError
    ends the whole read. *)
Example missing_field_ends_the_read :
  get_crates serve_abc "/m/index"
    [File "bar" [Mini.dq "{'name': 'bar', 'vers': '0.2.0', 'yanked': false}"];
     File "foo" [foo_line]]
  = gen_raise (KeyError "cksum").
Proof. by vm_compute. Qed.

(** ** The pool and the sequential loop *)

Section Pool.
Context (E : Env).

(** [download_files] is the effect of [download_crate] on the files. *)
Lemma download_crate_fetch_files (crate : CrateVersion) (w : state) :
  files (download_crate_fetch E crate w).2 = fetch_files E crate (files w)
  ∧ index (download_crate_fetch E crate w).2 = index w.
Proof.
  rewrite download_crate_fetch_run. cbv zeta. unfold fetch_files.
  destruct (urlopen E (crate_url E crate)) as [reason|data|data msg]; [done| |done].
  by destruct (decide _).
Qed.

Lemma download_crate_files (cache : string) (crate : CrateVersion) (w : state) :
  files (download_crate E cache crate w).2 = download_files E crate (files w)
  ∧ index (download_crate E cache crate w).2 = index w.
Proof.
  unfold download_files. destruct (files w !! crate_file E crate) as [data|] eqn:Hf.
  - destruct (decide (SHA256.sha256 data = cksum crate)) as [Hd|Hd].
    + by rewrite (download_crate_skip E cache crate w data).
    + rewrite (download_crate_retry E cache crate w data) by done.
      exact (download_crate_fetch_files crate
               (add_trace (EvUnlink (crate_file E crate))
                  (set_files (delete (crate_file E crate))
                     (add_log [log_retry E crate] w)))).
  - rewrite download_crate_absent by done. apply download_crate_fetch_files.
Qed.

Lemma dl_run (cache : string) (crate : CrateVersion) (w : state) :
  (dl E (cache, crate) w).1 = Return tt
  ∧ files (dl E (cache, crate) w).2 = download_files E crate (files w)
  ∧ index (dl E (cache, crate) w).2 = index w.
Proof.
  destruct (download_crate_files cache crate w) as [Hf Hi].
  unfold dl, try_except. cbn [fst snd].
  by destruct (download_crate E cache crate w) as [[[]|e] w'].
Qed.

(** [download_crate] raises only when the transfer breaks off. *)
Lemma download_crate_returns (cache : string) (crate : CrateVersion) (w : state) :
  ¬ transfer_breaks E crate → (download_crate E cache crate w).1 = Return tt.
Proof.
  intros Hno.
  assert (Hfetch : ∀ w0, (download_crate_fetch E crate w0).1 = Return tt).
  { intros w0. rewrite download_crate_fetch_run. cbv zeta.
    destruct (urlopen E (crate_url E crate)) as [reason|data|data msg] eqn:Hresp; [done| |].
    - by destruct (decide _).
    - destruct Hno. by exists data, msg. }
  destruct (files w !! crate_file E crate) as [data|] eqn:Hf.
  - destruct (decide (SHA256.sha256 data = cksum crate)) as [Hd|Hd].
    + by rewrite (download_crate_skip E cache crate w data).
    + by rewrite (download_crate_retry E cache crate w data).
  - by rewrite download_crate_absent.
Qed.

Lemma update_sequential_run (directory : string) (crates : list CrateVersion) (w : state) :
  Forall (λ c, ¬ transfer_breaks E c) crates →
  (update_sequential E directory crates w).1 = Return tt
  ∧ files (update_sequential E directory crates w).2 = sync_files E crates (files w)
  ∧ index (update_sequential E directory crates w).2 = index w.
Proof.
  intros Hall. revert w. induction Hall as [|crate crates Hc _ IH]; intros w; [done|].
  cbn [update_sequential sync_files foldl]. unfold mbind, M_bind, try_except.
  destruct (download_crate_files directory crate w) as [Hf Hi].
  pose proof (download_crate_returns directory crate w Hc) as Hr.
  destruct (download_crate E directory crate w) as [[[]|e] w']; [|done].
  cbn [fst snd] in *. destruct (IH w') as (-> & -> & ->). by rewrite Hf, Hi.
Qed.

(** The paths of two records with different canonical names are disjoint. *)
Lemma footprint_disjoint (c1 c2 : CrateVersion) (path : string) :
  crate_file E c1 ≠ crate_file E c2 → footprint E c1 path → ¬ footprint E c2 path.
Proof.
  intros Hne [-> | [-> | ->]] [H | [H | H]]; try done.
  - by eapply crate_tmp_ne_file.
  - by eapply crate_quarantine_ne_file.
  - by eapply crate_tmp_ne_file.
  - by apply Hne, crate_tmp_inj.
  - by eapply crate_quarantine_ne_tmp.
  - by eapply crate_quarantine_ne_file.
  - by eapply crate_quarantine_ne_tmp.
  - by apply Hne, crate_quarantine_inj.
Qed.

Lemma fetch_files_frame (crate : CrateVersion) (m : gmap string bytes) (path : string) :
  ¬ footprint E crate path → fetch_files E crate m !! path = m !! path.
Proof.
  unfold footprint, fetch_files. intros Hno.
  destruct (urlopen E (crate_url E crate)) as [reason|data|data msg]; [done| |].
  - destruct (decide _); rewrite lookup_insert_ne, lookup_delete_ne; naive_solver.
  - rewrite lookup_insert_ne; naive_solver.
Qed.

Lemma fetch_files_local (crate : CrateVersion) (m m' : gmap string bytes) (path : string) :
  m !! path = m' !! path → fetch_files E crate m !! path = fetch_files E crate m' !! path.
Proof.
  unfold fetch_files. intros Hp.
  destruct (urlopen E (crate_url E crate)) as [reason|data|data msg]; [done| |].
  - destruct (decide _); rewrite !lookup_insert, !lookup_delete; by repeat case_decide.
  - rewrite !lookup_insert. by case_decide.
Qed.

(** [download_files] leaves every path outside the footprint alone, and
    what it leaves at a path depends on the canonical path and on that
    path only. *)
Lemma download_files_frame (crate : CrateVersion) (m : gmap string bytes) (path : string) :
  ¬ footprint E crate path → download_files E crate m !! path = m !! path.
Proof.
  intros Hno. unfold download_files.
  destruct (m !! crate_file E crate) as [data|]; [|by apply fetch_files_frame].
  destruct (decide _); [done|]. rewrite fetch_files_frame by done.
  apply lookup_delete_ne. unfold footprint in Hno. naive_solver.
Qed.

Lemma download_files_local (crate : CrateVersion) (m m' : gmap string bytes) (path : string) :
  m !! crate_file E crate = m' !! crate_file E crate →
  m !! path = m' !! path →
  download_files E crate m !! path = download_files E crate m' !! path.
Proof.
  intros Hf Hp. unfold download_files. rewrite <- Hf.
  destruct (m !! crate_file E crate) as [data|]; [|by apply fetch_files_local].
  destruct (decide _); [done|]. apply fetch_files_local.
  rewrite !lookup_delete. by case_decide.
Qed.

Lemma download_files_comm (c1 c2 : CrateVersion) (m : gmap string bytes) :
  crate_file E c1 ≠ crate_file E c2 →
  download_files E c1 (download_files E c2 m) = download_files E c2 (download_files E c1 m).
Proof.
  intros Hne. apply map_eq. intros path.
  assert (H12 := footprint_disjoint c1 c2).
  assert (H21 := footprint_disjoint c2 c1).
  destruct (decide (footprint E c1 path)) as [H1|H1].
  - rewrite (download_files_frame c2 _ path) by auto.
    apply download_files_local; apply download_files_frame; [apply H12; [done|by left]|auto].
  - rewrite (download_files_frame c1 _ path) by done.
    destruct (decide (footprint E c2 path)) as [H2|H2].
    + symmetry. apply download_files_local; apply download_files_frame;
        [apply H21; [done|by left]|done].
    + by rewrite !download_files_frame.
Qed.

(** With distinct canonical names, the order of the records is
    immaterial to the files. *)
Lemma sync_files_perm (crates crates' : list CrateVersion) (m : gmap string bytes) :
  NoDup (crate_file E <$> crates) → crates ≡ₚ crates' →
  sync_files E crates m = sync_files E crates' m.
Proof.
  intros Hnd Hperm. revert m Hnd.
  induction Hperm as [|c l l' _ IH|c1 c2 l|l1 l2 l3 H12 IH12 H23 IH23]; intros m Hnd.
  - done.
  - cbn [sync_files foldl]. apply IH. by apply NoDup_cons in Hnd as [_ ?].
  - cbn [sync_files foldl]. f_equal. apply download_files_comm.
    apply NoDup_cons in Hnd as [Hnot _]. intros Heq. apply Hnot.
    cbn [fmap list_fmap]. rewrite Heq. by left.
  - rewrite IH12 by done. apply IH23. by rewrite <- H12.
Qed.

(** A run of the pool applies [dl] to the records it completes, in some
    order. *)
Lemma pool_run_files (jobs : nat) (directory : string) (p q : pool) :
  rtc (pool_step E jobs directory) p q →
  ∃ order,
    running p ++ queued p ≡ₚ order ++ running q ++ queued q
    ∧ files (world q) = sync_files E order (files (world p))
    ∧ index (world q) = index (world p).
Proof.
  induction 1 as [p|p r q Hstep _ (order & Hperm & Hf & Hi)].
  - by exists [].
  - destruct Hstep as [crate rest run w Hjobs|crate rest run1 run2 w];
      cbn [queued running world] in *.
    + exists order. split; [|done]. rewrite <- Hperm, <- app_assoc. done.
    + destruct (dl_run directory crate w) as (_ & Hdf & Hdi).
      exists (crate :: order). split; [|split].
      * rewrite <- app_comm_cons, <- Hperm, <- !app_assoc, <- app_comm_cons.
        symmetry. apply Permutation_middle.
      * cbn [sync_files foldl]. by rewrite Hf, Hdf.
      * by rewrite Hi, Hdi.
Qed.

(** The pool has a run: the one that takes the records one at a time. *)
Lemma pool_run_exists (jobs : nat) (directory : string) (crates : list CrateVersion)
    (w : state) :
  0 < jobs → ∃ w', imap_unordered E jobs directory crates w w'.
Proof.
  intros Hjobs. revert w. induction crates as [|crate crates IH]; intros w.
  - exists w. apply rtc_refl.
  - destruct (IH (dl E (directory, crate) w).2) as [w' Hrun]. exists w'.
    eapply rtc_l; [by apply (pool_dispatch E jobs directory crate crates [] w)|].
    eapply rtc_l; [apply (pool_complete E jobs directory crate crates [] [] w)|].
    exact Hrun.
Qed.

Lemma update_sequential_outcome (directory : string) (w : state) (out : result unit * state) :
  update E directory 1 w out ↔
  out = match update_crates E directory w with
        | (Raise e, w1) => (Raise e, w1)
        | (Return None, w1) => (Return tt, w1)
        | (Return (Some crates), w1) => update_sequential E directory crates w1
        end.
Proof.
  unfold update. destruct (update_crates E directory w) as [[[crates|]|e] w1]; [|done..].
  by rewrite decide_True.
Qed.

Lemma update_pool_outcome (directory : string) (parallel : Z) (w : state)
    (out : result unit * state) :
  (1 < parallel)%Z →
  update E directory parallel w out ↔
  match update_crates E directory w with
  | (Raise e, w1) => out = (Raise e, w1)
  | (Return None, w1) => out = (Return tt, w1)
  | (Return (Some crates), w1) =>
      ∃ w3, imap_unordered E (Z.to_nat parallel) directory crates
              (add_log [(INFO, "start downloading with "
                                 +:+ pretty (Z.to_nat parallel) +:+ " jobs")] w1) w3
            ∧ out = (Return tt, w3)
  end.
Proof.
  intros Hpar. unfold update.
  destruct (update_crates E directory w) as [[[crates|]|e] w1]; [|done..].
  destruct (decide (parallel = 1%Z)) as [?|_]; [lia|].
  destruct (decide (parallel ≤ 0)%Z) as [?|_]; [lia|]. cbv zeta.
  destruct (Z.to_nat parallel) as [|jobs] eqn:Hjobs; [lia|]. done.
Qed.

(** C5, as the code has it.  When the records of the index have pairwise
    distinct canonical file names and no transfer breaks off, [update]
    with one job, the sequential loop, which has one outcome, and
    [update] with more jobs, whatever the schedule of the pool, both
    have an outcome, and every two such outcomes agree on the result, on
    the files of the directory and on the index. *)
Theorem pool_agrees_with_sequential_loop (directory : string) (parallel : Z) (w : state) :
  (1 < parallel)%Z →
  NoDup (crate_file E <$> sync_records E directory w) →
  Forall (λ c, ¬ transfer_breaks E c) (sync_records E directory w) →
  (∃ out, update E directory 1 w out)
  ∧ (∃ out, update E directory parallel w out)
  ∧ (∀ out out', update E directory 1 w out → update E directory 1 w out' → out = out')
  ∧ ∀ out1 outN, update E directory 1 w out1 → update E directory parallel w outN →
      out1.1 = outN.1 ∧ files out1.2 = files outN.2 ∧ index out1.2 = index outN.2.
Proof.
  intros Hpar Hnd Hall. split; [|split; [|split]].
  - eexists. by apply update_sequential_outcome.
  - setoid_rewrite (update_pool_outcome directory parallel w _ Hpar).
    destruct (update_crates E directory w) as [[[crates|]|e] w1]; [|by eexists..].
    destruct (pool_run_exists (Z.to_nat parallel) directory crates
                (add_log [(INFO, "start downloading with "
                                   +:+ pretty (Z.to_nat parallel) +:+ " jobs")] w1))
      as [w3 Hrun]; [lia|].
    by exists (Return tt, w3), w3.
  - intros out out' ->%update_sequential_outcome ->%update_sequential_outcome. done.
  - intros out1 outN ->%update_sequential_outcome HN.
    apply (update_pool_outcome directory parallel w _ Hpar) in HN.
    unfold sync_records in *.
    destruct (update_crates E directory w) as [[[crates|]|e] w1];
      [|by subst..].
    destruct HN as (w3 & Hrun & ->).
    destruct (update_sequential_run directory crates w1 Hall) as (-> & -> & ->).
    destruct (pool_run_files _ _ _ _ Hrun) as (order & Hperm & Hf & Hi).
    cbn [queued running world files index add_log fst snd app] in *.
    rewrite !app_nil_r in Hperm. rewrite Hf, Hi. split; [done|]. split; [|done].
    by apply sync_files_perm.
Qed.

End Pool.

Lemma sync_records_two_crates : sync_records serve_abc "/m" two_crates = [bar; foo].
Proof. by vm_compute. Qed.

Lemma pool_agrees_with_sequential_loop_witness :
  (∃ out, update serve_abc "/m" 1 two_crates out)
  ∧ (∃ out, update serve_abc "/m" 4 two_crates out)
  ∧ (∀ out out', update serve_abc "/m" 1 two_crates out →
                 update serve_abc "/m" 1 two_crates out' → out = out')
  ∧ ∀ out1 outN, update serve_abc "/m" 1 two_crates out1 →
                 update serve_abc "/m" 4 two_crates outN →
      out1.1 = outN.1 ∧ files out1.2 = files outN.2 ∧ index out1.2 = index outN.2.
Proof.
  apply (pool_agrees_with_sequential_loop serve_abc "/m" 4 two_crates).
  - lia.
  - rewrite sync_records_two_crates. cbn [fmap list_fmap].
    apply NoDup_cons. split; [|apply NoDup_singleton].
    intros H%list_elem_of_singleton. vm_compute in H. discriminate.
  - rewrite sync_records_two_crates. repeat constructor; by intros (data & msg & [=]).
Defined.

(** What the sequential loop leaves on [two_crates]. *)
Example update_two_crates (out : result unit * state) :
  update serve_abc "/m" 1 two_crates out →
  out.1 = Return tt
  ∧ files out.2 = list_to_map [("foo-1.0.0.crate", abc); ("bar-0.2.0.crate", abc)].
Proof.
  intros H. apply (proj1 (update_sequential_outcome serve_abc "/m" two_crates out)) in H.
  subst out. split; by_compute.
Qed.

Lemma update_crates_collision :
  (update_crates colliding "/m" collision).1 = Return (Some [crate_a; crate_a_b])
  ∧ files (update_crates colliding "/m" collision).2 = ∅.
Proof. split; [vm_compute; reflexivity|by_compute]. Qed.

(** C5, as stated, fails on two records with the same canonical file
    name.  The sequential loop quarantines the payload of [a] and then
    commits [a-b-1.crate] for [a-b].  With two jobs the pool may complete
    [a-b] first: [a] then finds the committed file, whose digest is not
    its checksum, unlinks it, and quarantines its own payload.  The
    committed sets differ. *)
Lemma pool_order_shows_on_colliding_names :
  ∃ out1 out2,
    update colliding "/m" 1 collision out1
    ∧ update colliding "/m" 2 collision out2
    ∧ files out1.2 = list_to_map [("a-b-1.crate", abc); ("a-b-1.crate~corrupted", xyz)]
    ∧ files out2.2 = list_to_map [("a-b-1.crate~corrupted", xyz)].
Proof.
  destruct update_crates_collision as [Hr Hfiles].
  pose proof (update_sequential_outcome colliding "/m" collision) as Hseq.
  pose proof (λ out, update_pool_outcome colliding "/m" 2 collision out ltac:(lia)) as Hpool.
  destruct (update_crates colliding "/m" collision) as [r w1].
  cbn [fst snd] in Hr, Hfiles. subst r.
  exists (update_sequential colliding "/m" [crate_a; crate_a_b] w1).
  set (w2 := add_log [(INFO, "start downloading with " +:+ pretty (Z.to_nat 2) +:+ " jobs")] w1)
    in *.
  exists (Return tt, (dl colliding ("/m", crate_a) (dl colliding ("/m", crate_a_b) w2).2).2).
  split; [|split; [|split]].
  - by apply (proj2 (Hseq _)).
  - apply (proj2 (Hpool _)). eexists. split; [|done].
    eapply rtc_l; [apply (pool_dispatch colliding 2 "/m" crate_a [crate_a_b] [] w2);
                   cbn [length]; lia|].
    eapply rtc_l; [apply (pool_dispatch colliding 2 "/m" crate_a_b [] [crate_a] w2);
                   cbn [length]; lia|].
    eapply rtc_l; [apply (pool_complete colliding 2 "/m" crate_a_b [] [crate_a] [] w2)|].
    eapply rtc_l; [apply (pool_complete colliding 2 "/m" crate_a [] [] []
                            (dl colliding ("/m", crate_a_b) w2).2)|].
    apply rtc_refl.
  - destruct (update_sequential_run colliding "/m" [crate_a; crate_a_b] w1) as (_ & -> & _).
    { repeat constructor; intros (data & msg & H); vm_compute in H; discriminate. }
    rewrite Hfiles. by_compute.
  - cbn [snd]. destruct (dl_run colliding "/m" crate_a (dl colliding ("/m", crate_a_b) w2).2)
      as (_ & -> & _).
    destruct (dl_run colliding "/m" crate_a_b w2) as (_ & -> & _).
    subst w2. cbn [files add_log]. rewrite Hfiles. by_compute.
Qed.

(** It also fails where a transfer breaks off: the exception reaches the
    except clause of the sequential loop, whose undefined name ends the
    whole update, while [dl] lets the pool go on. *)
Example broken_transfer_ends_sequential_loop :
  (update_sequential break_off "/m" [foo; bar] Mini.empty).1 = Raise (NameError "KeyboardError")
  ∧ trace (update_sequential break_off "/m" [foo; bar] Mini.empty).2
    = transfer (crate_url break_off foo) "foo-1.0.0.crate~" (list_byte_of_string "ab").
Proof. split; by_compute. Qed.

(** * Further properties of the code *)

(** ** Decoding a record *)

Lemma fromhex_hex_byte (b : byte) (s : string) :
  fromhex (String (hexdigit (Byte.to_N b / 16))
             (String (hexdigit (Byte.to_N b mod 16)) s))
  = cons b <$> fromhex s.
Proof. by destruct b. Qed.

Lemma fromhex_hex (data : bytes) : fromhex (hex data) = Some data.
Proof.
  induction data as [|b data IH]; [done|].
  cbn [hex]. by rewrite fromhex_hex_byte, IH.
Qed.

Section Decoding.
Context (E : Env).

(** X1. The checksum round trip: the hexadecimal text of a record's
    checksum, as [download_crate] logs it, is read back by [fromjson] as
    that checksum.  A line whose object holds a record's name, vers and
    yanked and the text [hex (cksum c)] decodes to the record. *)
Theorem fromjson_of_hex (line : string) (items : list (string * json)) (c : CrateVersion) :
  json_loads E line = Some (JObject items) →
  dict_get "name" items = Some (name c) →
  dict_get "vers" items = Some (vers c) →
  dict_get "yanked" items = Some (yanked c) →
  dict_get "cksum" items = Some (JString (hex (cksum c))) →
  fromjson E line = Return c.
Proof.
  intros Hl Hn Hv Hy Hc. unfold fromjson, getitem.
  rewrite Hl, Hn, Hv, Hy, Hc, fromhex_hex. by destruct c.
Qed.

End Decoding.

Lemma fromjson_of_hex_witness : fromjson serve_abc foo_line = Return foo.
Proof.
  apply (fromjson_of_hex serve_abc foo_line
           [("name", JString "foo"); ("vers", JString "1.0.0"); ("deps", JArray []);
            ("cksum", JString (hex (SHA256.sha256 abc))); ("features", JObject []);
            ("yanked", JBool false)] foo); by_compute || (vm_compute; reflexivity).
Defined.

(** ** The index reader *)

Lemma string_leb_total (a b : string) : String.leb a b = true ∨ String.leb b a = true.
Proof. apply String.leb_total. Qed.

Lemma string_leb_trans (a b c : string) :
  String.leb a b = true → String.leb b c = true → String.leb a c = true.
Proof.
  intros Hab Hbc. apply Is_true_true. apply Is_true_true in Hab, Hbc.
  by apply (transitivity (R := String.le) Hab).
Qed.

Lemma string_leb_antisym (a b : string) :
  String.leb a b = true → String.leb b a = true → a = b.
Proof. apply String.leb_antisym. Qed.

(** Insertions of two entries with different names commute. *)
Lemma insert_sorted_comm {A} (key : A → string) (x y : A) (l : list A) :
  key x ≠ key y →
  insert_sorted key x (insert_sorted key y l) = insert_sorted key y (insert_sorted key x l).
Proof.
  intros Hne. induction l as [|z l IH]; cbn [insert_sorted].
  - destruct (String.leb (key x) (key y)) eqn:Hxy, (String.leb (key y) (key x)) eqn:Hyx;
      try done.
    + destruct Hne. by apply string_leb_antisym.
    + destruct (string_leb_total (key x) (key y)); congruence.
  - destruct (String.leb (key y) (key z)) eqn:Hyz, (String.leb (key x) (key z)) eqn:Hxz;
      cbn [insert_sorted]; rewrite ?Hyz, ?Hxz.
    + destruct (String.leb (key x) (key y)) eqn:Hxy, (String.leb (key y) (key x)) eqn:Hyx;
        try done.
      * destruct Hne. by apply string_leb_antisym.
      * destruct (string_leb_total (key x) (key y)); congruence.
    + destruct (String.leb (key x) (key y)) eqn:Hxy; [|done].
      rewrite (string_leb_trans _ _ _ Hxy Hyz) in Hxz. done.
    + destruct (String.leb (key y) (key x)) eqn:Hyx; [|done].
      rewrite (string_leb_trans _ _ _ Hyx Hxz) in Hyz. done.
    + by rewrite IH.
Qed.

Lemma sorted_permutation {A} (key : A → string) (l l' : list A) :
  NoDup (key <$> l) → l ≡ₚ l' → sorted key l = sorted key l'.
Proof.
  intros Hnd Hperm. revert Hnd.
  induction Hperm as [|x l l' _ IH|x y l|l1 l2 l3 H12 IH12 H23 IH23]; intros Hnd.
  - done.
  - unfold sorted. cbn [fold_right]. fold (sorted key l) (sorted key l').
    rewrite IH; [done|]. by apply NoDup_cons in Hnd as [_ ?].
  - unfold sorted. cbn [fold_right]. fold (sorted key l).
    apply insert_sorted_comm. apply NoDup_cons in Hnd as [Hnot _].
    intros Heq. apply Hnot. cbn [fmap list_fmap]. rewrite Heq. by left.
  - rewrite IH12 by done. apply IH23. by rewrite <- H12.
Qed.

Section ReaderOrder.
Context (E : Env).

(** X2. The index read does not depend on the order in which the
    directory is listed: two listings of the same entries, whose names
    are distinct as in any directory, give the same records, the same
    log and the same exception, in the same order. *)
Theorem get_crates_listing_order (indexdir : string) (entries entries' : list entry) :
  NoDup (entry_name <$> entries) → entries ≡ₚ entries' →
  get_crates E indexdir entries = get_crates E indexdir entries'.
Proof.
  intros Hnd Hperm. unfold get_crates. by rewrite (sorted_permutation _ entries entries').
Qed.

Lemma raised_gen_concat {A} (gs : list (gen A)) :
  raised (gen_concat gs) = None ↔ Forall (λ g, raised g = None) gs.
Proof.
  induction gs as [|g gs IH]; cbn [gen_concat fold_right].
  - split; [by constructor|done].
  - fold (gen_concat gs). unfold gen_seq. rewrite Forall_cons, <- IH.
    destruct (raised g) eqn:Hg; cbn [raised]; [rewrite Hg|]; naive_solver.
Qed.

Lemma raised_get_crate_versions (packfile : string) (lines : list string) :
  raised (get_crate_versions E packfile lines) = None ↔ tame E lines.
Proof.
  unfold tame. induction lines as [|line lines IH]; cbn [get_crate_versions first_failure].
  - split; [by left|done].
  - destruct (fromjson E line) as [c|e]; [done|].
    destruct e; cbn [raised gen_log gen_raise]; naive_solver.
Qed.

Lemma raised_get_crates_list (indexdir : string) (entries : list entry) :
  (∀ a, a ∈ entries →
        raised (get_crates_entry E indexdir a) = None
        ↔ ∀ p lines, pack_in indexdir [a] p lines → tame E lines) →
  raised (get_crates E indexdir entries) = None
  ↔ ∀ p lines, pack_in indexdir entries p lines → tame E lines.
Proof.
  intros Hall. unfold get_crates. rewrite raised_gen_concat, Forall_fmap, Forall_forall.
  setoid_rewrite (sorted_perm entry_name entries). split.
  - intros Hr p lines (a & Ha & Hp)%pack_in_split.
    apply (proj1 (Hall a Ha) (Hr a Ha) p lines Hp).
  - intros Ht a Ha. apply (proj2 (Hall a Ha)). intros p lines Hp. apply (Ht p).
    apply pack_in_split. eauto.
Qed.

Lemma raised_get_crates_entry (a : entry) :
  ∀ indexdir,
    raised (get_crates_entry E indexdir a) = None
    ↔ ∀ p lines, pack_in indexdir [a] p lines → tame E lines.
Proof.
  induction a as [n ls|n children IH] using entry_induction; intros indexdir.
  - destruct (decide (visible n)) as [Hv|Hv].
    + rewrite get_crates_entry_file, raised_get_crate_versions by done.
      setoid_rewrite pack_in_file. naive_solver.
    + rewrite get_crates_entry_skipped by done.
      setoid_rewrite pack_in_file. naive_solver.
  - destruct (decide (visible n)) as [Hv|Hv].
    + rewrite get_crates_entry_dir by done. rewrite raised_get_crates_list.
      * setoid_rewrite pack_in_dir. naive_solver.
      * intros c Hc. rewrite Forall_forall in IH. by apply IH.
    + rewrite get_crates_entry_skipped by done.
      setoid_rewrite pack_in_dir. naive_solver.
Qed.

(** X3. The index read ends without an exception exactly when every
    pack file it reaches is tame: all its lines decode, or the first that
    does not fails as JSON.  One reachable pack file whose first bad line
    lacks a field, holds a wrong type or has a checksum that is not
    hexadecimal makes the whole read raise. *)
Theorem get_crates_raises_iff (indexdir : string) (entries : list entry) :
  raised (get_crates E indexdir entries) = None
  ↔ ∀ packfile lines, pack_in indexdir entries packfile lines → tame E lines.
Proof.
  apply raised_get_crates_list. intros a _. apply raised_get_crates_entry.
Qed.

End ReaderOrder.

Lemma get_crates_listing_order_witness :
  get_crates serve_abc "/m/index" [File "foo" [foo_line]; File "bar" [bar_line]]
  = get_crates serve_abc "/m/index" [File "bar" [bar_line]; File "foo" [foo_line]].
Proof.
  apply (get_crates_listing_order serve_abc "/m/index").
  - apply (bool_decide_unpack _). by vm_compute.
  - apply Permutation_swap.
Defined.

(** ** Hashing and fetching in blocks *)

(** X4. [get_hash] does not depend on the block size: for every size
    but 0 it returns the SHA-256 digest of the whole file, or raises
    FileNotFoundError when there is no file, and it leaves the state as
    it was. *)
Theorem get_hash_any_block_size (fpath : string) (size : nat) (w : state) :
  0 < size →
  get_hash fpath size w
  = (match files w !! fpath with
     | Some data => Return (SHA256.sha256 data)
     | None => Raise (FileNotFoundError fpath)
     end, w).
Proof.
  intros Hsize. unfold get_hash, mbind, M_bind, open_rb, mret, M_ret, hasher_digest.
  destruct (files w !! fpath) as [data|]; [|done].
  by rewrite hash_blocks_all by lia.
Qed.

Lemma get_hash_any_block_size_witness :
  get_hash "foo-1.0.0.crate" 3 (with_file "foo-1.0.0.crate" xyz Mini.empty)
  = (Return (SHA256.sha256 xyz), with_file "foo-1.0.0.crate" xyz Mini.empty).
Proof.
  exact (get_hash_any_block_size "foo-1.0.0.crate" 3
           (with_file "foo-1.0.0.crate" xyz Mini.empty) ltac:(lia)).
Defined.

(** With size 0 the first read is empty: the digest of no bytes is
    returned, whatever the file holds. *)
Example get_hash_block_size_zero (fpath : string) (data : bytes) (w : state) :
  files w !! fpath = Some data →
  get_hash fpath 0 w = (Return (SHA256.sha256 []), w).
Proof.
  intros Hf. unfold get_hash, mbind, M_bind, open_rb, mret, M_ret, hasher_digest.
  by rewrite Hf.
Qed.

(** The blocks of a transfer are not empty, hold at most [size] bytes
    each, and make up the payload. *)
Lemma chunks_spec (turns size : nat) (data : bytes) :
  0 < size → length data < turns →
  concat (chunks turns size data) = data
  ∧ Forall (λ block, 0 < length block ≤ size) (chunks turns size data).
Proof.
  intros Hsize. revert data. induction turns as [|turns IH]; intros data Hlen; [lia|].
  destruct size as [|size]; [lia|].
  destruct data as [|b data]; [done|].
  cbn [chunks firstn]. rewrite skipn_cons.
  destruct (IH (drop size data)) as [Hcat Hall].
  { cbn [length] in Hlen. rewrite length_skipn. lia. }
  split.
  - cbn [concat]. rewrite Hcat. cbn [app]. by rewrite firstn_skipn.
  - constructor; [|done]. cbn [length]. rewrite length_firstn. lia.
Qed.

Section Fetching.
Context (E : Env).

(** X5. [retrieve_and_hash] on a payload that arrives whole, for every
    block size but 0: it returns the SHA-256 digest of the payload, the
    destination holds exactly the payload whatever it held before, and
    nothing else changes.  Its effects are the request, the creation of
    the destination and one write for each block; the blocks are not
    empty, hold at most the block size and make up the payload. *)
Theorem retrieve_and_hash_streams (url dst : string) (size : nat) (data : bytes)
    (w : state) :
  0 < size →
  urlopen E url = RespBody data →
  ∃ blocks,
    retrieve_and_hash E url dst size w
    = (Return (SHA256.sha256 data),
       {| files := <[dst := data]> (files w); index := index w; log := log w;
          trace := trace w ++ EvRequest url :: EvCreate dst :: (EvAppend dst <$> blocks) |})
    ∧ concat blocks = data
    ∧ Forall (λ block, 0 < length block ≤ size) blocks.
Proof.
  intros Hsize Hresp. exists (chunks (S (length data)) size data).
  split; [|by apply chunks_spec; lia].
  unfold retrieve_and_hash, mbind, M_bind, emit, open_wb. rewrite Hresp.
  rewrite (retrieve_blocks_run _ _ _ _ []) by (done || lia || apply lookup_insert_eq).
  cbn [files index log trace add_trace set_files app].
  by rewrite insert_insert_eq, <- !app_assoc.
Qed.

(** X6. [retrieve_and_hash] on a failure.  When the connection cannot be
    opened it raises URLError after the request and touches no file; when
    the transfer breaks off it raises what the read raised, and the
    destination is left holding the bytes received so far. *)
Theorem retrieve_and_hash_fails (url dst : string) (size : nat) (w : state) :
  0 < size →
  match urlopen E url with
  | RespError reason =>
      retrieve_and_hash E url dst size w
      = (Raise (URLError reason), add_trace (EvRequest url) w)
  | RespBroken received msg =>
      (retrieve_and_hash E url dst size w).1 = Raise (OSError msg)
      ∧ files (retrieve_and_hash E url dst size w).2 = <[dst := received]> (files w)
  | RespBody _ => True
  end.
Proof.
  intros Hsize. unfold retrieve_and_hash, mbind, M_bind, emit, open_wb.
  destruct (urlopen E url) as [reason|data|received msg]; [done..|].
  rewrite (retrieve_blocks_run _ _ _ _ []) by (done || lia || apply lookup_insert_eq).
  cbn [files index log trace add_trace set_files app fst snd].
  by rewrite insert_insert_eq.
Qed.

(** X7. What [get_hash] reads back from the destination of a fetch
    that arrived whole is the digest [retrieve_and_hash] returned, for
    every two block sizes but 0: the digest that decides the commit is
    the one a later run finds on the committed file. *)
Theorem get_hash_reads_back_the_fetch (url dst : string) (size size' : nat) (data : bytes)
    (w : state) :
  0 < size → 0 < size' →
  urlopen E url = RespBody data →
  (retrieve_and_hash E url dst size w).1 = Return (SHA256.sha256 data)
  ∧ get_hash dst size' (retrieve_and_hash E url dst size w).2
    = (Return (SHA256.sha256 data), (retrieve_and_hash E url dst size w).2).
Proof.
  intros Hsize Hsize' Hresp. unfold retrieve_and_hash, mbind, M_bind, emit, open_wb.
  rewrite Hresp.
  rewrite (retrieve_blocks_run _ _ _ _ []) by (done || lia || apply lookup_insert_eq).
  cbn [fst snd mret M_ret]. split; [done|].
  unfold get_hash, mbind, M_bind, open_rb, mret, M_ret, hasher_digest. cbn [files].
  rewrite lookup_insert_eq. by rewrite hash_blocks_all by lia.
Qed.

End Fetching.

Lemma retrieve_and_hash_streams_witness :
  ∃ blocks,
    retrieve_and_hash serve_abc "u" "d" 2 Mini.empty
    = (Return (SHA256.sha256 abc),
       {| files := <["d" := abc]> (files Mini.empty); index := index Mini.empty;
          log := log Mini.empty;
          trace := trace Mini.empty
                     ++ EvRequest "u" :: EvCreate "d" :: (EvAppend "d" <$> blocks) |})
    ∧ concat blocks = abc
    ∧ Forall (λ block, 0 < length block ≤ 2) blocks.
Proof. apply (retrieve_and_hash_streams serve_abc "u" "d" 2 abc); [lia|reflexivity]. Defined.

Lemma retrieve_and_hash_fails_witness :
  (retrieve_and_hash break_off "u" "d" 1 Mini.empty).1
  = Raise (OSError "[Errno 104] Connection reset by peer")
  ∧ files (retrieve_and_hash break_off "u" "d" 1 Mini.empty).2
    = <["d" := list_byte_of_string "ab"]> (files Mini.empty).
Proof. apply (retrieve_and_hash_fails break_off "u" "d" 1 Mini.empty). lia. Defined.

(** ** One record *)

Section OneRecord.
Context (E : Env).

(** X8. A record that is not up to date and whose payload arrives with
    the right digest is committed: [download_crate] returns, the
    canonical path holds the payload, so the record is up to date, and
    nothing is left at the temporary path.  This covers a record with no
    file yet and one whose stale file is replaced. *)
Theorem good_payload_is_committed (cache : string) (crate : CrateVersion) (data : bytes)
    (w : state) :
  ¬ up_to_date E crate w →
  urlopen E (crate_url E crate) = RespBody data →
  SHA256.sha256 data = cksum crate →
  ∃ w', download_crate E cache crate w = (Return tt, w')
        ∧ files w' !! crate_file E crate = Some data
        ∧ files w' !! crate_tmp E crate = None
        ∧ up_to_date E crate w'
        ∧ (INFO, crate_label E crate +:+ " downloaded") ∈ log w'.
Proof.
  intros Hno Hresp Hd.
  destruct (download_crate_fetches E cache crate w Hno) as (w0 & -> & Hf0 & _).
  rewrite download_crate_fetch_run. cbv zeta. rewrite Hresp, decide_True by done.
  eexists. split; [done|]. cbn [files log].
  assert (Htf := crate_tmp_ne_file E crate crate).
  assert (Hlook : <[crate_file E crate := data]> (delete (crate_tmp E crate) (files w0))
                    !! crate_file E crate = Some data) by apply lookup_insert_eq.
  repeat split.
  - done.
  - rewrite lookup_insert_ne by done. apply lookup_delete_eq.
  - by exists data.
  - rewrite elem_of_app. right. set_solver.
Qed.

(** X9. [download_crate] touches the record's own three paths only,
    the canonical, the temporary and the quarantine one: every other
    file of the directory, and the index, are as before, whatever the
    remote source answers and whether it returns or raises. *)
Theorem download_crate_stays_in_its_footprint (cache : string) (crate : CrateVersion)
    (w : state) (path : string) :
  ¬ footprint E crate path →
  files (download_crate E cache crate w).2 !! path = files w !! path
  ∧ index (download_crate E cache crate w).2 = index w.
Proof.
  intros Hno. destruct (download_crate_files E cache crate w) as [-> ->].
  by rewrite download_files_frame.
Qed.

Lemma fetch_files_absent (crate : CrateVersion) (m : gmap string bytes) :
  m !! crate_file E crate = None →
  ∀ data, fetch_files E crate m !! crate_file E crate = Some data →
          SHA256.sha256 data = cksum crate.
Proof.
  intros Hf data. unfold fetch_files.
  assert (Htf := crate_tmp_ne_file E crate crate).
  assert (Hqf := crate_quarantine_ne_file E crate crate).
  destruct (urlopen E (crate_url E crate)) as [reason|body|body msg].
  - by rewrite Hf.
  - destruct (decide _) as [Hd|Hd].
    + rewrite lookup_insert_eq. by intros [= <-].
    + by rewrite lookup_insert_ne, lookup_delete_ne, Hf.
  - by rewrite lookup_insert_ne, Hf.
Qed.

Lemma download_files_checksum (crate : CrateVersion) (m : gmap string bytes) (data : bytes) :
  download_files E crate m !! crate_file E crate = Some data →
  SHA256.sha256 data = cksum crate.
Proof.
  unfold download_files.
  destruct (m !! crate_file E crate) as [old|] eqn:Hf.
  - destruct (decide (SHA256.sha256 old = cksum crate)) as [Hd|Hd].
    + rewrite Hf. by intros [= <-].
    + apply fetch_files_absent, lookup_delete_eq.
  - by apply fetch_files_absent.
Qed.

(** X10. After [download_crate], in every case, what is at the canonical
    path of the record has the record's checksum as its digest: a file
    with another digest is never left, or put, under the committed name. *)
Theorem committed_file_has_the_checksum (cache : string) (crate : CrateVersion)
    (w : state) (data : bytes) :
  files (download_crate E cache crate w).2 !! crate_file E crate = Some data →
  SHA256.sha256 data = cksum crate.
Proof.
  destruct (download_crate_files E cache crate w) as [-> _].
  apply download_files_checksum.
Qed.

Lemma fetch_files_vacant (crate : CrateVersion) (m : gmap string bytes) :
  m !! crate_file E crate = None →
  (∃ data, fetch_files E crate m !! crate_file E crate = Some data
           ∧ SHA256.sha256 data = cksum crate)
  ∨ (fetch_files E crate m !! crate_file E crate = None
     ∧ fetch_files E crate (fetch_files E crate m) = fetch_files E crate m).
Proof.
  intros Hf. unfold fetch_files.
  assert (Htf := crate_tmp_ne_file E crate crate).
  assert (Hqf := crate_quarantine_ne_file E crate crate).
  assert (Hqt := crate_quarantine_ne_tmp E crate crate).
  destruct (urlopen E (crate_url E crate)) as [reason|body|body msg].
  - by right.
  - destruct (decide _) as [Hd|Hd].
    + left. exists body. by rewrite lookup_insert_eq.
    + right. split; [by rewrite lookup_insert_ne, lookup_delete_ne|].
      apply map_eq. intros k.
      repeat (rewrite lookup_insert || rewrite lookup_delete).
      repeat case_decide; congruence.
  - right. split; [by rewrite lookup_insert_ne|]. by rewrite insert_insert_eq.
Qed.

Lemma download_files_idem (crate : CrateVersion) (m : gmap string bytes) :
  download_files E crate (download_files E crate m) = download_files E crate m.
Proof.
  assert (Hfetch : ∀ m0, m0 !! crate_file E crate = None →
            download_files E crate (fetch_files E crate m0) = fetch_files E crate m0).
  { intros m0 H0. unfold download_files at 1.
    destruct (fetch_files_vacant crate m0 H0) as [(data & -> & Hd)|[-> Hidem]].
    - by rewrite decide_True.
    - done. }
  unfold download_files at 2 3.
  destruct (m !! crate_file E crate) as [old|] eqn:Hf.
  - destruct (decide (SHA256.sha256 old = cksum crate)) as [Hd|Hd].
    + unfold download_files. by rewrite Hf, decide_True.
    + apply Hfetch, lookup_delete_eq.
  - by apply Hfetch.
Qed.

(** X11. Processing a record again changes no file: the files after two
    runs of [download_crate] in a row are the files after one.  With a
    committed payload the second run is a skip; otherwise it repeats the
    fetch and comes to the same files. *)
Theorem download_crate_again (cache : string) (crate : CrateVersion) (w : state) :
  files (download_crate E cache crate (download_crate E cache crate w).2).2
  = files (download_crate E cache crate w).2.
Proof.
  destruct (download_crate_files E cache crate (download_crate E cache crate w).2) as [-> _].
  destruct (download_crate_files E cache crate w) as [-> _].
  apply download_files_idem.
Qed.

End OneRecord.

Lemma good_payload_is_committed_witness :
  ∃ w', download_crate serve_abc "/m" foo (with_file "foo-1.0.0.crate" xyz Mini.empty)
          = (Return tt, w')
        ∧ files w' !! crate_file serve_abc foo = Some abc
        ∧ files w' !! crate_tmp serve_abc foo = None
        ∧ up_to_date serve_abc foo w'
        ∧ (INFO, crate_label serve_abc foo +:+ " downloaded") ∈ log w'.
Proof.
  apply (good_payload_is_committed serve_abc "/m" foo abc).
  - intros (data & Hf & Hd). vm_compute in Hf. injection Hf as <-.
    vm_compute in Hd. discriminate.
  - reflexivity.
  - by_compute.
Defined.

Lemma download_crate_stays_in_its_footprint_witness :
  files (download_crate serve_abc "/m" foo (with_file "README" xyz Mini.empty)).2 !! "README"
  = files (with_file "README" xyz Mini.empty) !! "README"
  ∧ index (download_crate serve_abc "/m" foo (with_file "README" xyz Mini.empty)).2
    = index (with_file "README" xyz Mini.empty).
Proof.
  apply (download_crate_stays_in_its_footprint serve_abc "/m" foo).
  intros [H|[H|H]]; vm_compute in H; discriminate.
Defined.

Lemma committed_file_has_the_checksum_witness :
  SHA256.sha256 abc = cksum foo.
Proof.
  apply (committed_file_has_the_checksum serve_abc "/m" foo Mini.empty abc). by_compute.
Defined.

(** ** The pool *)

Section PoolRuns.
Context (E : Env).

Lemma pool_run_order (jobs : nat) (directory : string) (p q : pool) :
  rtc (pool_step E jobs directory) p q →
  ∃ order,
    running p ++ queued p ≡ₚ order ++ running q ++ queued q
    ∧ world q = dl_all E directory order (world p).
Proof.
  induction 1 as [p|p r q Hstep _ (order & Hperm & Hw)].
  - by exists [].
  - destruct Hstep as [crate rest run w Hjobs|crate rest run1 run2 w];
      cbn [queued running world] in *.
    + exists order. split; [|done]. by rewrite <- Hperm, <- app_assoc.
    + exists (crate :: order). split; [|done].
      rewrite <- app_comm_cons, <- Hperm, <- !app_assoc, <- app_comm_cons.
      symmetry. apply Permutation_middle.
Qed.

Lemma pool_run_in_order (jobs : nat) (directory : string) (crates : list CrateVersion)
    (w : state) :
  0 < jobs → imap_unordered E jobs directory crates w (dl_all E directory crates w).
Proof.
  intros Hjobs. revert w. induction crates as [|crate crates IH]; intros w.
  - apply rtc_refl.
  - eapply rtc_l; [by apply (pool_dispatch E jobs directory crate crates [] w)|].
    eapply rtc_l; [apply (pool_complete E jobs directory crate crates [] [] w)|].
    apply IH.
Qed.


Lemma pool_run_single (directory : string) (p q : pool) :
  rtc (pool_step E 1 directory) p q →
  length (running p) ≤ 1 → running q = [] → queued q = [] →
  world q = dl_all E directory (running p ++ queued p) (world p).
Proof.
  induction 1 as [p|p r q Hstep _ IH]; intros Hlen Hrun Hqueue.
  - by rewrite Hrun, Hqueue.
  - destruct Hstep as [crate rest run w Hjobs|crate rest run1 run2 w];
      cbn [queued running world] in *.
    + destruct run; [|cbn [length] in Hjobs; lia].
      rewrite IH; cbn [app length]; [done|lia|done..].
    + destruct run1 as [|c1 run1]; [|rewrite length_app in Hlen; cbn [length] in Hlen; lia].
      destruct run2 as [|c2 run2]; [|cbn [length app] in Hlen; lia].
      rewrite IH; cbn [app length]; [done|lia|done..].
Qed.

(** X13. A pool of one job is the loop over the list: it has exactly one
    run, which applies [dl] to the records in the order of the index. *)
Theorem pool_of_one_keeps_the_order (directory : string) (crates : list CrateVersion)
    (w w' : state) :
  imap_unordered E 1 directory crates w w' ↔ w' = dl_all E directory crates w.
Proof.
  split.
  - intros Hrun. apply (pool_run_single _ _ _ Hrun); cbn [running queued length]; (lia || done).
  - intros ->. apply pool_run_in_order. lia.
Qed.

End PoolRuns.

(** ** The coordinator *)

Section Coordinator.
Context (E : Env).

Lemma update_sequential_app (directory : string) (pre post : list CrateVersion) (w : state) :
  update_sequential E directory (pre ++ post) w
  = match update_sequential E directory pre w with
    | (Return _, w1) => update_sequential E directory post w1
    | (Raise e, w1) => (Raise e, w1)
    end.
Proof.
  revert w. induction pre as [|c pre IH]; intros w; [done|].
  cbn [app update_sequential]. unfold mbind, M_bind.
  destruct (try_except _ _ w) as [[[]|e] w1]; [apply IH|done].
Qed.

(** X14. The sequential loop stops at the first record whose
    [download_crate] raises, whatever the exception: the except clause
    names KeyboardError, which is not defined, so the loop ends in a
    NameError, in the state that record left, and the records after it
    are not processed. *)
Theorem sequential_loop_stops_at_first_exception (directory : string)
    (pre post : list CrateVersion) (crate : CrateVersion) (e : exn) (w : state) :
  (update_sequential E directory pre w).1 = Return tt →
  (download_crate E directory crate (update_sequential E directory pre w).2).1 = Raise e →
  update_sequential E directory (pre ++ crate :: post) w
  = (Raise (NameError "KeyboardError"),
     (download_crate E directory crate (update_sequential E directory pre w).2).2).
Proof.
  intros Hpre Hraise. rewrite update_sequential_app.
  destruct (update_sequential E directory pre w) as [[[]|e0] w1]; [|done].
  cbn [fst snd update_sequential] in *. unfold mbind, M_bind, try_except.
  by destruct (download_crate E directory crate w1) as [[[]|e1] w2].
Qed.

(** The first half of [update] changes no file. *)
Lemma update_crates_files (directory : string) (w : state) :
  files (update_crates E directory w).2 = files w.
Proof.
  unfold update_crates, update_index_repository, mbind, M_bind, iterdir_index, consume,
    LOGGER, emit, raise, mret, M_ret.
  destruct (index w) as [entries|] eqn:Hi; cbn [index add_log add_trace negb bool_decide];
    [|by rewrite bool_decide_eq_false_2 by (by intros [? ?])].
  rewrite bool_decide_eq_true_2 by (by eexists). cbn [negb index add_log add_trace].
  rewrite Hi. destruct (git_fetch_reset E entries) as [[entries' output]|]; [|done].
  cbn [index set_index add_log add_trace].
  by destruct (raised (get_crates E (path_join directory "index") entries')).
Qed.

(** X15. When the shell command that refreshes the index fails, [update]
    ends in a NameError, for the except clause names CallProcessError,
    which is not defined: whatever the number of jobs, the one outcome is
    that exception, the index and the files are as before, and the
    refresh is the only effect, so no record is read and nothing is
    requested. *)
Theorem failed_refresh_ends_update (directory : string) (parallel : Z) (w : state)
    (entries : list entry) :
  index w = Some entries →
  git_fetch_reset E entries = None →
  (∃ out, update E directory parallel w out)
  ∧ ∀ out, update E directory parallel w out →
      out.1 = Raise (NameError "CallProcessError")
      ∧ files out.2 = files w
      ∧ index out.2 = index w
      ∧ trace out.2 = trace w ++ [EvGit].
Proof.
  intros Hi Hgit.
  assert (Hup : ∃ w1, update_crates E directory w = (Raise (NameError "CallProcessError"), w1)
                      ∧ files w1 = files w ∧ index w1 = index w
                      ∧ trace w1 = trace w ++ [EvGit]).
  { unfold update_crates, update_index_repository, mbind, M_bind, iterdir_index,
      LOGGER, emit, raise.
    rewrite Hi, bool_decide_eq_true_2 by (by eexists).
    cbn [negb index add_log add_trace]. rewrite Hi, Hgit. by eexists. }
  destruct Hup as (w1 & Hup & Hf & Hx & Ht). unfold update. rewrite Hup. split.
  - by eexists.
  - by intros out ->.
Qed.

Lemma sync_files_frame (crates : list CrateVersion) (m : gmap string bytes) (path : string) :
  (∀ c, c ∈ crates → ¬ footprint E c path) →
  sync_files E crates m !! path = m !! path.
Proof.
  revert m. induction crates as [|c crates IH]; intros m Hno; [done|].
  cbn [sync_files foldl]. fold (sync_files E crates (download_files E c m)).
  rewrite IH by (intros c' Hc'; apply Hno; by right).
  apply download_files_frame, Hno. by left.
Qed.

Lemma update_sequential_files (directory : string) (crates : list CrateVersion) (w : state) :
  ∃ done, done `prefix_of` crates
          ∧ files (update_sequential E directory crates w).2 = sync_files E done (files w).
Proof.
  revert w. induction crates as [|c crates IH]; intros w.
  - by exists [].
  - cbn [update_sequential]. unfold mbind, M_bind, try_except.
    destruct (download_crate_files E directory c w) as [Hf _].
    destruct (download_crate E directory c w) as [[[]|e] w1]; cbn [snd] in Hf.
    + destruct (IH w1) as (done & Hpre & ->). exists (c :: done).
      split; [by apply prefix_cons|]. cbn [sync_files foldl]. by rewrite Hf.
    + exists [c]. split; [by apply prefix_cons, prefix_nil|].
      cbn [raise snd sync_files foldl]. done.
Qed.

(** The files after [update], whatever the number of jobs: those that
    [download_crate] leaves after some of the records, each at most once. *)
Lemma update_files (directory : string) (parallel : Z) (w : state)
    (out : result unit * state) :
  update E directory parallel w out →
  ∃ done, done ⊆+ sync_records E directory w
          ∧ files out.2 = sync_files E done (files w).
Proof.
  unfold update, sync_records. pose proof (update_crates_files directory w) as Hfiles.
  destruct (update_crates E directory w) as [[[crates|]|e] w1]; cbn [snd] in Hfiles.
  - destruct (decide (parallel = 1%Z)) as [_|_].
    + intros ->. destruct (update_sequential_files directory crates w1) as (done & Hpre & ->).
      exists done. split; [|by rewrite Hfiles].
      destruct Hpre as [rest ->]. by apply submseteq_inserts_r.
    + cbv zeta. destruct (if decide (parallel ≤ 0)%Z then _ else _) as [|jobs].
      * intros ->. exists []. split; [apply submseteq_nil_l|]. by rewrite <- Hfiles.
      * intros (w3 & Hrun & ->).
        destruct (pool_run_files E _ _ _ _ Hrun) as (order & Hperm & Hf & _).
        cbn [queued running world files add_log app snd] in *.
        rewrite !app_nil_r in Hperm. exists order.
        split; [by rewrite Hperm|]. by rewrite Hf, Hfiles.
  - intros ->. by exists [].
  - intros ->. by exists [].
Qed.

(** X16. [update] never touches a file that is outside the three paths
    of every record of the index: it is there afterwards as it was
    before, whatever the number of jobs, the schedule of the pool and the
    answers of the remote source.  In particular [update] removes no
    file of a package that has left the index. *)
Theorem update_leaves_other_files (directory : string) (parallel : Z) (w : state)
    (out : result unit * state) (path : string) :
  (∀ crate, crate ∈ sync_records E directory w → ¬ footprint E crate path) →
  update E directory parallel w out →
  files out.2 !! path = files w !! path.
Proof.
  intros Hno Hup. destruct (update_files _ _ _ _ Hup) as (done & Hsub & ->).
  apply sync_files_frame. intros c Hc. apply Hno.
  by eapply elem_of_submseteq.
Qed.

Lemma served_up_to_date (crate : CrateVersion) (m : gmap string bytes) :
  served E crate →
  ∃ data, download_files E crate m !! crate_file E crate = Some data
          ∧ SHA256.sha256 data = cksum crate.
Proof.
  intros (body & Hresp & Hbody). unfold download_files, fetch_files. rewrite Hresp.
  destruct (m !! crate_file E crate) as [old|] eqn:Hf.
  - destruct (decide (SHA256.sha256 old = cksum crate)) as [Hd|Hd]; [by exists old|].
    rewrite decide_True by done. exists body. by rewrite lookup_insert_eq.
  - rewrite decide_True by done. exists body. by rewrite lookup_insert_eq.
Qed.

Lemma sync_files_snoc (crates : list CrateVersion) (c : CrateVersion) (m : gmap string bytes) :
  sync_files E (crates ++ [c]) m = download_files E c (sync_files E crates m).
Proof. unfold sync_files. by rewrite foldl_app. Qed.

Lemma sync_files_up_to_date (crates : list CrateVersion) (m : gmap string bytes)
    (crate : CrateVersion) :
  NoDup (crate_file E <$> crates) → crate ∈ crates → served E crate →
  ∃ data, sync_files E crates m !! crate_file E crate = Some data
          ∧ SHA256.sha256 data = cksum crate.
Proof.
  induction crates as [|c crates IH] using rev_ind; intros Hnd Hin Hserved.
  - by apply elem_of_nil in Hin.
  - rewrite sync_files_snoc. rewrite fmap_app in Hnd.
    apply NoDup_app in Hnd as (Hnd & Hnot & _).
    apply elem_of_app in Hin as [Hin|Hin].
    + destruct (IH Hnd Hin Hserved) as (data & Hlook & Hd).
      exists data. split; [|done]. rewrite download_files_frame; [done|].
      apply (footprint_disjoint E crate c); [|by left].
      intros Heq. apply (Hnot (crate_file E crate)).
      * apply list_elem_of_fmap. by exists crate.
      * rewrite Heq. cbn. by left.
    + apply list_elem_of_singleton in Hin as ->. by apply served_up_to_date.
Qed.

(** When no transfer breaks, [update] handles every record of the
    index, in some order. *)
Lemma update_syncs_all (directory : string) (parallel : Z) (w : state)
    (out : result unit * state) :
  (∀ crate, crate ∈ sync_records E directory w → ¬ transfer_breaks E crate) →
  out.1 = Return tt ∨ (0 < parallel)%Z ∨ 0 < cpu_count E →
  update E directory parallel w out →
  ∃ order, sync_records E directory w ≡ₚ order
           ∧ files out.2 = sync_files E order (files w).
Proof.
  unfold update, sync_records. pose proof (update_crates_files directory w) as Hfiles.
  destruct (update_crates E directory w) as [[[crates|]|e] w1]; cbn [snd] in Hfiles;
    intros Hno Hjobs; [|intros ->; by exists []..].
  destruct (decide (parallel = 1%Z)) as [_|Hne].
  - intros ->. exists crates. split; [done|].
    destruct (update_sequential_run E directory crates w1) as (_ & -> & _);
      [by apply Forall_forall|by rewrite Hfiles].
  - cbv zeta.
    destruct (if decide (parallel ≤ 0)%Z then _ else _) as [|jobs] eqn:Hj.
    { intros ->. destruct Hjobs as [?|Hjobs]; [done|].
      destruct (decide (parallel ≤ 0)%Z); lia. }
    intros (w3 & Hrun & ->).
    destruct (pool_run_files E _ _ _ _ Hrun) as (order & Hperm & Hf & _).
    cbn [queued running world files add_log app snd] in *.
    rewrite !app_nil_r in Hperm. exists order. by rewrite Hf, Hfiles.
Qed.

Lemma served_not_broken (crate : CrateVersion) : served E crate → ¬ transfer_breaks E crate.
Proof. intros (body & Hresp & _) (data & msg & Hbroken). congruence. Qed.

Lemma update_commits (directory : string) (parallel : Z) (w : state)
    (out : result unit * state) (crate : CrateVersion) :
  NoDup (crate_file E <$> sync_records E directory w) →
  (∀ crate, crate ∈ sync_records E directory w → served E crate) →
  out.1 = Return tt ∨ (0 < parallel)%Z ∨ 0 < cpu_count E →
  update E directory parallel w out →
  crate ∈ sync_records E directory w →
  ∃ data, files out.2 !! crate_file E crate = Some data ∧ SHA256.sha256 data = cksum crate.
Proof.
  intros Hnd Hserved Hjobs Hup Hin.
  destruct (update_syncs_all directory parallel w out) as (order & Hperm & ->);
    [intros c Hc; by apply served_not_broken, Hserved|done..|].
  rewrite <- (sync_files_perm E _ order) by done.
  apply sync_files_up_to_date; auto.
Qed.


Lemma update_sequential_index (directory : string) (crates : list CrateVersion) (w : state) :
  index (update_sequential E directory crates w).2 = index w.
Proof.
  revert w. induction crates as [|c crates IH]; intros w; [done|].
  cbn [update_sequential]. unfold mbind, M_bind, try_except.
  destruct (download_crate_files E directory c w) as [_ Hi].
  destruct (download_crate E directory c w) as [[[]|e] w1]; cbn [snd] in Hi.
  - by rewrite IH.
  - done.
Qed.

(** What the first half of [update] leaves when it has listed the
    records: the refreshed index, which [get_crates] reads to its end. *)
Lemma update_crates_some (directory : string) (w w1 : state) (r : result (option (list CrateVersion))) :
  is_Some (index w) →
  update_crates E directory w = (r, w1) →
  match r with
  | Return (Some crates) =>
      ∃ entries, index w1 = Some entries
                 ∧ raised (get_crates E (path_join directory "index") entries) = None
                 ∧ crates = yielded (get_crates E (path_join directory "index") entries)
  | Return None => False
  | Raise _ => True
  end.
Proof.
  intros [entries Hi]. unfold update_crates, update_index_repository, mbind, M_bind,
    iterdir_index, consume, LOGGER, emit, raise, mret, M_ret.
  rewrite bool_decide_eq_true_2 by (by eexists). cbn [negb index add_log add_trace].
  rewrite Hi. destruct (git_fetch_reset E entries) as [[entries' output]|]; [|by intros [= <- <-]].
  cbn [index set_index add_log add_trace].
  destruct (raised (get_crates E (path_join directory "index") entries')) eqn:Hr;
    intros [= <- <-]; [done|]. by exists entries'.
Qed.

Lemma update_returns (directory : string) (parallel : Z) (w : state)
    (out : result unit * state) :
  is_Some (index w) →
  update E directory parallel w out →
  out.1 = Return tt →
  ∃ entries, index out.2 = Some entries
             ∧ raised (get_crates E (path_join directory "index") entries) = None
             ∧ sync_records E directory w
               = yielded (get_crates E (path_join directory "index") entries).
Proof.
  intros Hindex. unfold update, sync_records.
  pose proof (update_crates_some directory w) as Hsome.
  destruct (update_crates E directory w) as [r w1]. specialize (Hsome w1 r Hindex eq_refl).
  destruct r as [[crates|]|e]; [|done|by intros ->].
  destruct Hsome as (entries & Hi & Hr & ->).
  destruct (decide (parallel = 1%Z)) as [_|_].
  - intros -> _. exists entries. by rewrite update_sequential_index.
  - cbv zeta. destruct (if decide (parallel ≤ 0)%Z then _ else _) as [|jobs]; [by intros ->|].
    intros (w3 & Hrun & ->) _.
    destruct (pool_run_files E _ _ _ _ Hrun) as (order & _ & _ & Hx).
    cbn [world index add_log snd] in *. exists entries. by rewrite Hx.
Qed.

(** X18. [update] and then [cleanup] make the mirror exact.  On a mirror
    with an index, when the canonical file names of the records are
    distinct, the remote source serves each record a payload with its
    checksum and [update] returns, the [cleanup] that follows completes,
    every record of the index is committed with its checksum, and every
    file left with one of the three artifact names is the committed file
    of a record. *)
Theorem update_then_cleanup_is_exact (directory : string) (parallel : Z) (w : state)
    (out : result unit * state) :
  is_Some (index w) →
  NoDup (crate_file E <$> sync_records E directory w) →
  (∀ crate, crate ∈ sync_records E directory w → served E crate) →
  update E directory parallel w out →
  out.1 = Return tt →
  (cleanup E directory out.2).1 = Return tt
  ∧ (∀ crate, crate ∈ sync_records E directory w →
       up_to_date E crate (cleanup E directory out.2).2)
  ∧ ∀ path,
      is_committed path = true ∨ is_partial path = true ∨ is_quarantined path = true →
      is_Some (files (cleanup E directory out.2).2 !! path) →
      path ∈ crate_file E <$> sync_records E directory w.
Proof.
  intros Hindex Hnd Hserved Hup Hret.
  destruct (update_returns _ _ _ _ Hindex Hup Hret) as (entries & Hi & Hr & Hrecords).
  assert (Hdone : (cleanup E directory out.2).1 = Return tt).
  { by rewrite cleanup_result, Hi, Hr. }
  assert (Hnames : expected_names E directory out.2
                   = crate_file E <$> sync_records E directory w).
  { unfold expected_names. by rewrite Hi, Hrecords. }
  destruct (cleanup_completes E _ _ Hdone) as (Hf & _ & _).
  split; [done|]. unfold up_to_date. rewrite Hf. split.
  - intros crate Hin.
    assert (Hex : crate_file E crate ∈ expected_names E directory out.2).
    { rewrite Hnames. apply list_elem_of_fmap. by exists crate. }
    destruct (expected_names_committed E _ _ _ Hex) as (Hc & Hp & Hq).
    rewrite lookup_swept, Hc, Hp, Hq, bool_decide_eq_true_2 by done. cbn [orb andb negb].
    apply (update_commits directory parallel w out); auto.
  - intros path Hkind [data Hdata]. rewrite lookup_swept in Hdata. rewrite <- Hnames.
    destruct (is_partial path); [done|]. destruct (is_quarantined path); [done|].
    destruct Hkind as [Hc|[?|?]]; [|done..]. rewrite Hc in Hdata. cbn [orb andb] in Hdata.
    destruct (decide (path ∈ expected_names E directory out.2)) as [?|Hno]; [done|].
    by rewrite bool_decide_eq_false_2 in Hdata.
Qed.

Lemma sync_files_keeps (crates : list CrateVersion) (m : gmap string bytes)
    (crate : CrateVersion) (data : bytes) :
  (∀ c, c ∈ crates → crate_file E c = crate_file E crate → cksum c = cksum crate) →
  m !! crate_file E crate = Some data →
  SHA256.sha256 data = cksum crate →
  sync_files E crates m !! crate_file E crate = Some data.
Proof.
  revert m. induction crates as [|c crates IH]; intros m Hsame Hm Hd; [done|].
  cbn [sync_files foldl]. fold (sync_files E crates (download_files E c m)).
  apply IH; [intros c' Hc'; apply Hsame; by right| |done].
  destruct (decide (crate_file E c = crate_file E crate)) as [Heq|Hne].
  - unfold download_files. rewrite Heq, Hm, decide_True; [done|].
    rewrite Hd. symmetry. apply Hsame; [by left|done].
  - rewrite download_files_frame; [done|].
    apply (footprint_disjoint E crate c); [done|by left].
Qed.

(** X19. [update] keeps a valid artifact.  A file that is committed with
    the checksum of its record is there with the same bytes after
    [update], whatever the number of jobs, the schedule and the answers
    of the remote source, as long as no record of the index has the same
    canonical file name with another checksum.  The record itself need
    not be in the index any more. *)
Theorem update_keeps_valid_artifacts (directory : string) (parallel : Z) (w : state)
    (out : result unit * state) (crate : CrateVersion) :
  (∀ c, c ∈ sync_records E directory w →
        crate_file E c = crate_file E crate → cksum c = cksum crate) →
  up_to_date E crate w →
  update E directory parallel w out →
  files out.2 !! crate_file E crate = files w !! crate_file E crate
  ∧ up_to_date E crate out.2.
Proof.
  intros Hsame (data & Hf & Hd) Hup.
  destruct (update_files _ _ _ _ Hup) as (done & Hsub & Hfiles).
  assert (Hkept : files out.2 !! crate_file E crate = Some data).
  { rewrite Hfiles. apply sync_files_keeps; [|done..].
    intros c Hc. apply Hsame. by eapply elem_of_submseteq. }
  split; [by rewrite Hkept, Hf|]. by exists data.
Qed.

Lemma update_crates_trace (directory : string) (w : state) :
  trace (update_crates E directory w).2
  = trace w ++ match index w with Some _ => [EvGit] | None => [] end.
Proof.
  unfold update_crates, update_index_repository, mbind, M_bind, iterdir_index, consume,
    LOGGER, emit, raise, mret, M_ret.
  destruct (index w) as [entries|] eqn:Hi; cbn [index add_log add_trace negb bool_decide].
  - rewrite bool_decide_eq_true_2 by (by eexists). cbn [negb index add_log add_trace].
    rewrite Hi. destruct (git_fetch_reset E entries) as [[entries' output]|]; [|done].
    cbn [index set_index add_log add_trace].
    by destruct (raised (get_crates E (path_join directory "index") entries')).
  - rewrite bool_decide_eq_false_2 by (by intros [? ?]). cbn. by rewrite app_nil_r.
Qed.

Lemma update_sequential_in_sync (directory : string) (crates : list CrateVersion) (w : state) :
  (∀ c, c ∈ crates → up_to_date E c w) →
  update_sequential E directory crates w = (Return tt, add_log (log_skip E <$> crates) w).
Proof.
  revert w. induction crates as [|c crates IH]; intros w Hsync.
  - cbn. unfold mret, M_ret, add_log. by rewrite app_nil_r, <- state_eta.
  - cbn [update_sequential]. unfold mbind, M_bind, try_except.
    destruct (Hsync c) as (data & Hf & Hd); [by left|].
    rewrite (download_crate_skip E directory c w data Hf Hd).
    rewrite IH by (intros c' Hc'; apply Hsync; by right).
    unfold add_log. cbn [files index log trace fmap list_fmap].
    by rewrite <- app_assoc.
Qed.

Lemma dl_all_in_sync (directory : string) (order : list CrateVersion) (w : state) :
  (∀ c, c ∈ order → up_to_date E c w) →
  dl_all E directory order w = add_log (log_skip E <$> order) w.
Proof.
  revert w. induction order as [|c order IH]; intros w Hsync.
  - cbn. unfold add_log. by rewrite app_nil_r, <- state_eta.
  - cbn [dl_all foldl]. fold (dl_all E directory order (dl E (directory, c) w).2).
    destruct (Hsync c) as (data & Hf & Hd); [by left|].
    unfold dl, try_except. cbn [fst snd].
    rewrite (download_crate_skip E directory c w data Hf Hd). cbn [snd].
    rewrite IH by (intros c' Hc'; apply Hsync; by right).
    unfold add_log. cbn [files index log trace fmap list_fmap].
    by rewrite <- app_assoc.
Qed.

(** X20. On a mirror that is in sync, [update] only refreshes the index:
    when every record of the refreshed index is committed with its
    checksum, no file is changed and the only effect is the git command,
    so nothing is requested from the remote source, whatever the number
    of jobs and the schedule of the pool. *)
Theorem update_in_sync_only_refreshes (directory : string) (parallel : Z) (w : state)
    (out : result unit * state) :
  (∀ crate, crate ∈ sync_records E directory w → up_to_date E crate w) →
  update E directory parallel w out →
  files out.2 = files w
  ∧ trace out.2 = trace w ++ match index w with Some _ => [EvGit] | None => [] end.
Proof.
  unfold update, sync_records.
  pose proof (update_crates_files directory w) as Hfiles.
  pose proof (update_crates_trace directory w) as Htrace.
  destruct (update_crates E directory w) as [[[crates|]|e] w1]; cbn [snd] in Hfiles, Htrace;
    intros Hsync; [|by intros ->..].
  assert (Hsync1 : ∀ c, c ∈ crates → up_to_date E c w1).
  { intros c Hc. unfold up_to_date. rewrite Hfiles. by apply Hsync. }
  destruct (decide (parallel = 1%Z)) as [_|_].
  - intros ->. by rewrite update_sequential_in_sync.
  - cbv zeta. destruct (if decide (parallel ≤ 0)%Z then _ else _) as [|jobs]; [by intros ->|].
    intros (w3 & Hrun & ->).
    destruct (pool_run_order E _ _ _ _ Hrun) as (order & Hperm & Hw).
    cbn [queued running world app snd] in *. rewrite !app_nil_r in Hperm.
    rewrite Hw, dl_all_in_sync; [done|].
    intros c Hc. unfold up_to_date. cbn [files add_log]. apply Hsync1. by rewrite Hperm.
Qed.

Lemma update_sequential_returns (directory : string) (crates : list CrateVersion) (w : state) :
  (update_sequential E directory crates w).1 = Return tt →
  files (update_sequential E directory crates w).2 = sync_files E crates (files w).
Proof.
  revert w. induction crates as [|c crates IH]; intros w; [done|].
  cbn [update_sequential]. unfold mbind, M_bind, try_except.
  destruct (download_crate_files E directory c w) as [Hf _].
  destruct (download_crate E directory c w) as [[[]|e] w1]; cbn [snd] in Hf; [|done].
  intros Hret. rewrite (IH w1 Hret). cbn [sync_files foldl]. by rewrite Hf.
Qed.

(** When [update] returns it has handled every record of the index, in
    some order. *)
Lemma update_handles_all (directory : string) (parallel : Z) (w : state)
    (out : result unit * state) :
  update E directory parallel w out →
  out.1 = Return tt →
  ∃ order, sync_records E directory w ≡ₚ order
           ∧ files out.2 = sync_files E order (files w).
Proof.
  unfold update, sync_records. pose proof (update_crates_files directory w) as Hfiles.
  destruct (update_crates E directory w) as [[[crates|]|e] w1]; cbn [snd] in Hfiles;
    [|intros -> _; by exists []..].
  destruct (decide (parallel = 1%Z)) as [_|_].
  - intros -> Hret. exists crates. split; [done|].
    by rewrite update_sequential_returns, Hfiles.
  - cbv zeta. destruct (if decide (parallel ≤ 0)%Z then _ else _) as [|jobs]; [by intros ->|].
    intros (w3 & Hrun & ->) _.
    destruct (pool_run_files E _ _ _ _ Hrun) as (order & Hperm & Hf & _).
    cbn [queued running world files add_log app snd] in *.
    rewrite !app_nil_r in Hperm. exists order. by rewrite Hf, Hfiles.
Qed.

Lemma sync_files_checksum (crates : list CrateVersion) (m : gmap string bytes)
    (crate : CrateVersion) (data : bytes) :
  NoDup (crate_file E <$> crates) → crate ∈ crates →
  sync_files E crates m !! crate_file E crate = Some data →
  SHA256.sha256 data = cksum crate.
Proof.
  induction crates as [|c crates IH] using rev_ind; intros Hnd Hin.
  - by apply elem_of_nil in Hin.
  - rewrite sync_files_snoc. rewrite fmap_app in Hnd.
    apply NoDup_app in Hnd as (Hnd & Hnot & _).
    apply elem_of_app in Hin as [Hin|Hin].
    + rewrite download_files_frame; [by apply IH|].
      apply (footprint_disjoint E crate c); [|by left].
      intros Heq. apply (Hnot (crate_file E crate)).
      * apply list_elem_of_fmap. by exists crate.
      * rewrite Heq. cbn. by left.
    + apply list_elem_of_singleton in Hin as ->. apply download_files_checksum.
Qed.

(** X21. After an [update] that returns, no committed file of a record
    is corrupt: when the canonical file names of the records are
    distinct, whatever is at the canonical path of a record of the index
    has the record's checksum as its digest, whatever the remote source
    served, the directory held before, the number of jobs and the
    schedule of the pool. *)
Theorem update_commits_no_corrupt_file (directory : string) (parallel : Z) (w : state)
    (out : result unit * state) :
  NoDup (crate_file E <$> sync_records E directory w) →
  update E directory parallel w out →
  out.1 = Return tt →
  ∀ crate data,
    crate ∈ sync_records E directory w →
    files out.2 !! crate_file E crate = Some data →
    SHA256.sha256 data = cksum crate.
Proof.
  intros Hnd Hup Hret crate data Hin.
  destruct (update_handles_all _ _ _ _ Hup Hret) as (order & Hperm & ->).
  apply sync_files_checksum; [by rewrite <- Hperm|by rewrite <- Hperm].
Qed.

End Coordinator.

Lemma sequential_loop_stops_at_first_exception_witness :
  update_sequential break_off "/m" ([] ++ foo :: [bar]) Mini.empty
  = (Raise (NameError "KeyboardError"),
     (download_crate break_off "/m" foo (update_sequential break_off "/m" [] Mini.empty).2).2).
Proof.
  apply (sequential_loop_stops_at_first_exception break_off "/m" [] [bar] foo
           (OSError "[Errno 104] Connection reset by peer")).
  - reflexivity.
  - by_compute.
Defined.

Lemma update_one_job_run (E : Env) (directory : string) (w : state) :
  update E directory 1 w (update_one_job E directory w).
Proof. by apply update_sequential_outcome. Qed.

Lemma sync_records_attic : sync_records serve_abc "/m" attic = [foo].
Proof. by vm_compute. Qed.


Lemma two_crates_names : NoDup (crate_file serve_abc <$> [bar; foo]).
Proof.
  cbn [fmap list_fmap]. apply NoDup_cons. split; [|apply NoDup_singleton].
  intros H%list_elem_of_singleton. vm_compute in H. discriminate.
Qed.

Lemma failed_refresh_ends_update_witness :
  (∃ out, update offline "/m" 0 two_crates out)
  ∧ ∀ out, update offline "/m" 0 two_crates out →
      out.1 = Raise (NameError "CallProcessError")
      ∧ files out.2 = files two_crates
      ∧ index out.2 = index two_crates
      ∧ trace out.2 = trace two_crates ++ [EvGit].
Proof.
  by apply (failed_refresh_ends_update offline "/m" 0 two_crates
              [Dir "3" [Dir "f" [File "foo" [foo_line]]; Dir "b" [File "bar" [bar_line]]]]).
Defined.

Lemma update_leaves_other_files_witness :
  files (update_one_job serve_abc "/m" attic).2 !! "bar-0.2.0.crate"
  = files attic !! "bar-0.2.0.crate".
Proof.
  apply (update_leaves_other_files serve_abc "/m" 1 attic).
  - rewrite sync_records_attic.
    intros c ->%list_elem_of_singleton [H|[H|H]]; vm_compute in H; discriminate.
  - apply update_one_job_run.
Defined.


Lemma update_then_cleanup_is_exact_witness :
  (cleanup serve_abc "/m" (update_one_job serve_abc "/m" attic).2).1 = Return tt
  ∧ (∀ crate, crate ∈ sync_records serve_abc "/m" attic →
       up_to_date serve_abc crate
         (cleanup serve_abc "/m" (update_one_job serve_abc "/m" attic).2).2)
  ∧ ∀ path,
      is_committed path = true ∨ is_partial path = true ∨ is_quarantined path = true →
      is_Some (files (cleanup serve_abc "/m" (update_one_job serve_abc "/m" attic).2).2
                 !! path) →
      path ∈ crate_file serve_abc <$> sync_records serve_abc "/m" attic.
Proof.
  apply (update_then_cleanup_is_exact serve_abc "/m" 1 attic).
  - by eexists.
  - rewrite sync_records_attic. apply NoDup_singleton.
  - rewrite sync_records_attic. intros c ->%list_elem_of_singleton. by exists abc.
  - apply update_one_job_run.
  - by_compute.
Defined.

(** ** The reconciler *)

Section Reconciling.
Context (E : Env).

(** X22. [cleanup] is all or nothing.  The command exits with status 0
    or 1; when it exits with 1 no file was removed, and the index and the
    trace of effects are as before; and it exits with 1 exactly when
    there is no index or the index read raises.  Without an index
    nothing at all changes. *)
Theorem failed_cleanup_removes_nothing (dir : string) (w : state) (out : Z * state) :
  main E (CmdCleanup dir) w out →
  (out.1 = 0%Z ∨ out.1 = 1%Z)
  ∧ (out.1 = 1%Z →
     files out.2 = files w ∧ index out.2 = index w ∧ trace out.2 = trace w)
  ∧ (out.1 = 1%Z ↔
     match index w with
     | None => True
     | Some entries => raised (get_crates E (path_join dir "index") entries) ≠ None
     end)
  ∧ (index w = None → out = (1%Z, w)).
Proof.
  cbn [main]. intros ->. cbn [fst snd].
  destruct (cleanup E dir w).1 as [[]|e] eqn:Hr; cbn [exit_status].
  - split; [by left|]. split; [done|]. split.
    + rewrite cleanup_result in Hr. destruct (index w) as [entries|]; [|done].
      destruct (raised _); [done|]. by split.
    + intros Hi. by rewrite cleanup_result, Hi in Hr.
  - split; [by right|]. split; [intros _; by apply (cleanup_fails E dir w e)|]. split.
    + rewrite cleanup_result in Hr. destruct (index w) as [entries|]; [|done].
      by destruct (raised _).
    + intros Hi. pose proof (cleanup_run E dir w) as Hrun. rewrite Hi in Hrun.
      by rewrite Hrun.
Qed.



End Reconciling.

Section Offline.
Context (E E' : Env).
Hypothesis same_loads : ∀ s, json_loads E s = json_loads E' s.
Hypothesis same_str : ∀ v, py_str E v = py_str E' v.

Lemma fromjson_env (line : string) : fromjson E line = fromjson E' line.
Proof using same_loads. unfold fromjson. by rewrite same_loads. Qed.

Lemma get_crate_versions_env (packfile : string) (lines : list string) :
  get_crate_versions E packfile lines = get_crate_versions E' packfile lines.
Proof using same_loads.
  induction lines as [|line lines IH]; [done|].
  cbn [get_crate_versions]. by rewrite fromjson_env, IH.
Qed.

Lemma get_crates_entry_env (a : entry) :
  ∀ indexdir, get_crates_entry E indexdir a = get_crates_entry E' indexdir a.
Proof using same_loads.
  induction a as [n lines|n children IH] using entry_induction; intros indexdir.
  - cbn [get_crates_entry]. by rewrite get_crate_versions_env.
  - cbn [get_crates_entry].
    assert (Hmap : List.map (λ c, (entry_name c, get_crates_entry E (path_join indexdir n) c))
                     children
                   = List.map (λ c, (entry_name c, get_crates_entry E' (path_join indexdir n) c))
                       children).
    { induction IH as [|c children Hc _ IHc]; [done|].
      cbn [List.map]. by rewrite Hc, IHc. }
    by rewrite Hmap.
Qed.

Lemma get_crates_env (indexdir : string) (entries : list entry) :
  get_crates E indexdir entries = get_crates E' indexdir entries.
Proof using same_loads.
  unfold get_crates. f_equal. apply List.map_ext. intros a. apply get_crates_entry_env.
Qed.

Lemma crate_file_env (crate : CrateVersion) : crate_file E crate = crate_file E' crate.
Proof using same_str. unfold crate_file. by rewrite !same_str. Qed.

(** X24. [cleanup] works offline: what it returns, removes and logs
    depends on the environment through the JSON decoder and the text of
    names and versions only, so neither the remote source nor the index
    refresh nor the number of processors has a part in it. *)
Theorem cleanup_works_offline (directory : string) (w : state) :
  cleanup E directory w = cleanup E' directory w.
Proof using same_loads same_str.
  rewrite !cleanup_run. destruct (index w) as [entries|]; [|done].
  cbv zeta. rewrite get_crates_env.
  destruct (raised (get_crates E' (path_join directory "index") entries)); [done|].
  unfold cleanup_sweep.
  assert (Hnames : List.map (crate_file E) (yielded (get_crates E' (path_join directory "index") entries))
                   = List.map (crate_file E') (yielded (get_crates E' (path_join directory "index") entries))).
  { apply List.map_ext, crate_file_env. }
  by rewrite Hnames.
Qed.

End Offline.

Lemma failed_cleanup_removes_nothing_witness :
  (1%Z = 0%Z ∨ 1%Z = 1%Z)
  ∧ (1%Z = 1%Z →
     files bare = files bare ∧ index bare = index bare ∧ trace bare = trace bare)
  ∧ (1%Z = 1%Z ↔ True)
  ∧ (index bare = None → (1%Z, bare) = (1%Z, bare)).
Proof.
  apply (failed_cleanup_removes_nothing serve_abc "/m" bare (1%Z, bare)).
  reflexivity.
Defined.


Lemma cleanup_works_offline_witness :
  cleanup serve_abc "/m" attic = cleanup refuse "/m" attic.
Proof. by apply (cleanup_works_offline serve_abc refuse). Defined.

Lemma update_keeps_valid_artifacts_witness :
  files (update_one_job break_off "/m" attic).2 !! crate_file break_off bar
  = files attic !! crate_file break_off bar
  ∧ up_to_date break_off bar (update_one_job break_off "/m" attic).2.
Proof.
  apply (update_keeps_valid_artifacts break_off "/m" 1 attic).
  - assert (Hrecords : sync_records break_off "/m" attic = [foo]) by (by vm_compute).
    rewrite Hrecords. intros c ->%list_elem_of_singleton H. vm_compute in H. discriminate.
  - exists abc. split; [reflexivity|by_compute].
  - apply update_one_job_run.
Defined.

Lemma get_hash_reads_back_the_fetch_witness :
  (retrieve_and_hash serve_abc "u" "d" 2 Mini.empty).1 = Return (SHA256.sha256 abc)
  ∧ get_hash "d" 1 (retrieve_and_hash serve_abc "u" "d" 2 Mini.empty).2
    = (Return (SHA256.sha256 abc), (retrieve_and_hash serve_abc "u" "d" 2 Mini.empty).2).
Proof.
  apply (get_hash_reads_back_the_fetch serve_abc "u" "d" 2 1 abc); [lia|lia|reflexivity].
Defined.

Lemma update_in_sync_only_refreshes_witness :
  files (update_one_job refuse "/m" attic).2 = files attic
  ∧ trace (update_one_job refuse "/m" attic).2 = trace attic ++ [EvGit].
Proof.
  apply (update_in_sync_only_refreshes refuse "/m" 1 attic).
  - assert (Hrecords : sync_records refuse "/m" attic = [foo]) by (by vm_compute).
    rewrite Hrecords. intros c ->%list_elem_of_singleton.
    exists abc. split; [reflexivity|by_compute].
  - apply update_one_job_run.
Defined.

Lemma update_commits_no_corrupt_file_witness : SHA256.sha256 abc = cksum bar.
Proof.
  apply (update_commits_no_corrupt_file serve_abc "/m" 1 two_crates
           (update_one_job serve_abc "/m" two_crates)).
  - rewrite sync_records_two_crates. apply two_crates_names.
  - apply update_one_job_run.
  - by_compute.
  - rewrite sync_records_two_crates. by apply elem_of_cons; left.
  - by_compute.
Defined.
